(** * TextTiling (readless/Segmentation/texttiling.py)

    A shallow embedding of [tokenize_string] and [block_score] together with
    the properties of the two functions that the design document states.

    Conventions of the embedding.
    - Python integers are [Z]; list lengths are converted with [Z.of_nat].
    - A Python 2 [str] is a [string] (a sequence of bytes); the scanners work
      on its [list ascii] form.
    - An exception is a value of [exn]; code that may raise returns
      [result A].
    - A [Counter] is an association list from words to counts.  Python 2
      leaves the iteration order of a dictionary unspecified; the model
      iterates in order of first insertion, and every statement below that
      speaks about the contents of a group does so through counts or
      membership, which do not depend on that order.
    - The scores are Python floats.  They are idealised as real numbers: the
      three sums of a gap are integers (exact in binary64 far beyond any
      realistic text) and the score is [numerator / sqrt (before * after)]
      in [R]. *)

From Stdlib Require Import ZArith List String Ascii Bool Lia Sorted Permutation.
From Stdlib Require Import Reals Lra.
Import ListNotations.

Local Open Scope string_scope.
Local Open Scope Z_scope.

(** ** Exceptions *)

Inductive exn : Type :=
| ZeroDivisionError
| IndexError.

Inductive result (A : Type) : Type :=
| Ok (a : A)
| Raise (e : exn).

Arguments Ok {A} a.
Arguments Raise {A} e.

Definition bind {A B : Type} (r : result A) (f : A -> result B) : result B :=
  match r with
  | Ok a => f a
  | Raise e => Raise e
  end.

Notation "x <- r ;; k" := (bind r (fun x => k))
  (at level 61, r at next level, right associativity).

Definition is_error {A : Type} (r : result A) : Prop :=
  exists e, r = Raise e.

(** ** collections.Counter *)

Module Counter.

Definition t : Type := list (string * Z).

Definition empty : t := [].

(** [c[k]]: a missing key reads as 0 and is not inserted. *)
Fixpoint get (c : t) (k : string) : Z :=
  match c with
  | [] => 0
  | (k', v) :: c' => if String.eqb k k' then v else get c' k
  end.

(** [k in c] *)
Fixpoint mem (c : t) (k : string) : bool :=
  match c with
  | [] => false
  | (k', _) :: c' => String.eqb k k' || mem c' k
  end.

(** [c[k] = v] *)
Fixpoint set (c : t) (k : string) (v : Z) : t :=
  match c with
  | [] => [(k, v)]
  | (k', v') :: c' =>
      if String.eqb k k' then (k', v) :: c' else (k', v') :: set c' k v
  end.

(** [c[k] += 1] *)
Definition incr (c : t) (k : string) : t := set c k (get c k + 1).

(** [Counter(iterable)] on a list of words. *)
Definition of_list (l : list string) : t := fold_left incr l empty.

(** Iterating a Counter yields its keys. *)
Definition keys (c : t) : list string := map fst c.

(** [a + b]: counts are added and only positive totals are kept; keys of
    [b] absent from [a] follow those of [a]. *)
Definition add (a b : t) : t :=
  fold_left
    (fun res kv =>
       if negb (mem a (fst kv)) && (0 <? snd kv) then set res (fst kv) (snd kv)
       else res)
    b
    (fold_left
       (fun res kv =>
          let newcount := snd kv + get b (fst kv) in
          if 0 <? newcount then set res (fst kv) newcount else res)
       a empty).

End Counter.

(** ** Characters and the string methods used by the tokenizer *)

Definition is_lower (c : ascii) : bool :=
  let n := nat_of_ascii c in (97 <=? n)%nat && (n <=? 122)%nat.

Definition is_upper (c : ascii) : bool :=
  let n := nat_of_ascii c in (65 <=? n)%nat && (n <=? 90)%nat.

(** Whitespace removed by [str.strip()]: space, \t, \n, \v, \f, \r. *)
Definition is_space (c : ascii) : bool :=
  let n := nat_of_ascii c in (n =? 32)%nat || ((9 <=? n)%nat && (n <=? 13)%nat).

Definition LF : ascii := ascii_of_nat 10.
Definition CR : ascii := ascii_of_nat 13.

(** [str.lower()] *)
Definition lower_char (c : ascii) : ascii :=
  if is_upper c then ascii_of_nat (nat_of_ascii c + 32) else c.

Definition lower (s : string) : string :=
  string_of_list_ascii (map lower_char (list_ascii_of_string s)).

(** [str.splitlines()]: lines end at \n, \r or \r\n; the terminators are
    removed and a final terminator opens no empty last line.  [cur] holds the
    current line, reversed. *)
Fixpoint splitlines_aux (cur : list ascii) (s : list ascii) : list (list ascii) :=
  match s with
  | [] => match cur with [] => [] | _ => [rev cur] end
  | c :: rest =>
      if Ascii.eqb c CR then
        match rest with
        | c' :: rest' =>
            if Ascii.eqb c' LF then rev cur :: splitlines_aux [] rest'
            else rev cur :: splitlines_aux [] rest
        | [] => rev cur :: splitlines_aux [] rest
        end
      else if Ascii.eqb c LF then rev cur :: splitlines_aux [] rest
      else splitlines_aux (c :: cur) rest
  end.

Definition splitlines (s : string) : list (list ascii) :=
  splitlines_aux [] (list_ascii_of_string s).

Fixpoint lstrip (s : list ascii) : list ascii :=
  match s with
  | [] => []
  | c :: rest => if is_space c then lstrip rest else s
  end.

Definition strip (s : list ascii) : list ascii :=
  rev (lstrip (rev (lstrip s))).

(** ** re.findall(pattern, paragraph)

    The pattern is one or more letters of a-z followed by any number of
    groups made of one hyphen or apostrophe and one or more letters of a-z,
    matched greedily: a maximal run of lowercase letters, extended as long
    as a hyphen or apostrophe is directly followed by a lowercase letter.
    The scanner keeps the match in progress: [InWord acc] after a letter, [AfterSep acc sep] after
    a hyphen or apostrophe that joins only if a letter follows. *)

Inductive scan_state : Type :=
| Idle
| InWord (acc : list ascii)
| AfterSep (acc : list ascii) (sep : ascii).

Definition is_joiner (c : ascii) : bool :=
  Ascii.eqb c "-"%char || Ascii.eqb c "'"%char.

Fixpoint findall_aux (st : scan_state) (s : list ascii) : list string :=
  match s with
  | [] =>
      match st with
      | Idle => []
      | InWord acc => [string_of_list_ascii (rev acc)]
      | AfterSep acc _ => [string_of_list_ascii (rev acc)]
      end
  | c :: rest =>
      match st with
      | Idle =>
          if is_lower c then findall_aux (InWord [c]) rest
          else findall_aux Idle rest
      | InWord acc =>
          if is_lower c then findall_aux (InWord (c :: acc)) rest
          else if is_joiner c then findall_aux (AfterSep acc c) rest
          else string_of_list_ascii (rev acc) :: findall_aux Idle rest
      | AfterSep acc sep =>
          if is_lower c then findall_aux (InWord (c :: sep :: acc)) rest
          else string_of_list_ascii (rev acc) :: findall_aux Idle rest
      end
  end.

Definition findall (paragraph : list ascii) : list string :=
  findall_aux Idle paragraph.

(** ** Sequence helpers *)

(** [range(lo, hi)] *)
Definition range (lo hi : Z) : list Z :=
  map (fun i => lo + Z.of_nat i) (seq 0 (Z.to_nat (hi - lo))).

Definition len {A : Type} (l : list A) : Z := Z.of_nat (List.length l).

(** [l[i]]: a negative index counts from the end; out of range raises. *)
Definition getitem {A : Type} (l : list A) (i : Z) : result A :=
  let j := if i <? 0 then i + len l else i in
  if j <? 0 then Raise IndexError
  else match nth_error l (Z.to_nat j) with
       | Some a => Ok a
       | None => Raise IndexError
       end.

(** [l[:-1]] *)
Definition drop_last {A : Type} (l : list A) : list A := removelast l.

(** [set(l)], iterated in order of first occurrence. *)
Fixpoint distinct (l : list string) : list string :=
  match l with
  | [] => []
  | x :: l' => x :: filter (fun y => negb (String.eqb y x)) (distinct l')
  end.

(** [for x in l: st = body(st, x)] where the body may raise. *)
Fixpoint for_each {A S : Type} (body : S -> A -> result S) (l : list A) (st : S)
  : result S :=
  match l with
  | [] => Ok st
  | x :: l' => st' <- body st x ;; for_each body l' st'
  end.

(** [a % b] on integers: the sign of the result follows the divisor. *)
Definition py_mod (a b : Z) : result Z :=
  if b =? 0 then Raise ZeroDivisionError else Ok (a mod b).

(** ** The two functions

    [lemmatizer.lemmatize] and [stop_words] are module-level names bound to
    NLTK objects; they are parameters here. *)

Section TextTiling.

Variable lemmatize : string -> string.
Variable stop_words : list string.

(** [word in stop_words] *)
Definition is_stop_word (word : string) : bool :=
  existsb (String.eqb word) stop_words.

(** *** tokenize_string *)

Definition is_empty_line (s : list ascii) : bool :=
  match s with [] => true | _ => false end.

(** The stripped, non-empty lines of the input. *)
Definition paragraphs (input_string : string) : list (list ascii) :=
  filter (fun s => negb (is_empty_line s)) (map strip (splitlines input_string)).

Record count_state : Type := mk_count_state {
  tokens : list string;
  token_count : Z;
  paragraph_breaks : list Z
}.

(** Body of the loop over the paragraphs. *)
Definition count_step (st : count_state) (paragraph : list ascii) : count_state :=
  let paragraph_tokens := findall paragraph in
  let token_count' := token_count st + len paragraph_tokens in
  {| tokens := tokens st ++ paragraph_tokens;
     token_count := token_count';
     paragraph_breaks := paragraph_breaks st ++ [token_count'] |}.

Definition count_tokens (ps : list (list ascii)) : count_state :=
  fold_left count_step ps
    {| tokens := []; token_count := 0; paragraph_breaks := [] |}.

Record group_state : Type := mk_group_state {
  count : Counter.t;
  index : Z;
  token_sequences : list Counter.t
}.

(** Body of the loop that cuts the token stream into groups of [w]. *)
Definition group_step (w : Z) (st : group_state) (token : string)
  : result group_state :=
  let count' := Counter.incr (count st) token in
  let index' := index st + 1 in
  r <- py_mod index' w ;;
  if r =? 0 then
    Ok {| count := Counter.empty; index := 0;
          token_sequences := token_sequences st ++ [count'] |}
  else
    Ok {| count := count'; index := index';
          token_sequences := token_sequences st |}.

Definition group_tokens (w : Z) (toks : list string) : result (list Counter.t) :=
  st <- for_each (group_step w) toks
          {| count := Counter.empty; index := 0; token_sequences := [] |} ;;
  Ok (token_sequences st).

(** First rewriting of a group: iterate the keys of the Counter, keep
    those that are no stop words, lemmatize them. *)
Definition remove_stop_words (group : Counter.t) : list string :=
  map lemmatize (filter (fun word => negb (is_stop_word word)) (Counter.keys group)).

(** Second rewriting of a group. *)
Definition lemmatize_group (group : list string) : list string :=
  map lemmatize group.

Definition raw_tokens (input_string : string) : list string :=
  tokens (count_tokens (paragraphs input_string)).

Definition tokenize_string (input_string : string) (w : Z)
  : result (list (list string) * list string * list Z) :=
  let st := count_tokens (paragraphs input_string) in
  let paragraph_breaks := drop_last (paragraph_breaks st) in
  token_sequences <- group_tokens w (tokens st) ;;
  let token_sequences := map remove_stop_words token_sequences in
  let token_sequences := map lemmatize_group token_sequences in
  let unique_tokens :=
    filter (fun word => negb (is_stop_word word)) (distinct (tokens st)) in
  Ok (token_sequences, unique_tokens, paragraph_breaks).

End TextTiling.

(** *** block_score *)

(** Effective half-width of the windows at a gap. *)
Definition current_k (k : Z) (n gap_index : Z) : Z :=
  Z.min gap_index (Z.min k (n - gap_index)).

(** Body of the loop over [j]: one group is added to each accumulator. *)
Definition accumulate (token_sequence : list (list string)) (gap_index ck : Z)
    (st : Counter.t * Counter.t) (j : Z) : result (Counter.t * Counter.t) :=
  before_group <- getitem token_sequence (gap_index + j - ck) ;;
  after_group <- getitem token_sequence (gap_index + j) ;;
  Ok (Counter.add (fst st) (Counter.of_list before_group),
      Counter.add (snd st) (Counter.of_list after_group)).

Record sums : Type := mk_sums {
  numerator : Z;
  before_sum : Z;
  after_sum : Z
}.

Definition zero_sums : sums :=
  {| numerator := 0; before_sum := 0; after_sum := 0 |}.

(** Body of the loop over the vocabulary. *)
Definition add_token (before_count after_count : Counter.t) (s : sums) (token : string)
  : sums :=
  {| numerator := numerator s
       + Counter.get before_count token * Counter.get after_count token;
     before_sum := before_sum s + Counter.get before_count token ^ 2;
     after_sum := after_sum s + Counter.get after_count token ^ 2 |}.

Definition gap_sums (unique_tokens : list string) (before_count after_count : Counter.t)
  : sums :=
  fold_left (add_token before_count after_count) unique_tokens zero_sums.

Record score_state : Type := mk_score_state {
  before_count : Counter.t;
  after_count : Counter.t;
  sums_block : list sums
}.

(** Body of the loop over the gaps.  [before_count] and [after_count] are
    part of the state that one gap hands to the next: the source creates
    them once, before the loop.  The two slices [before_block] and
    [after_block] are never read and slicing cannot raise, so they are left
    out. *)
Definition gap_step (k : Z) (token_sequence : list (list string))
    (unique_tokens : list string) (st : score_state) (gap_index : Z)
  : result score_state :=
  let ck := current_k k (len token_sequence) gap_index in
  counts <- for_each (accumulate token_sequence gap_index ck) (range 0 ck)
              (before_count st, after_count st) ;;
  Ok {| before_count := fst counts;
        after_count := snd counts;
        sums_block := sums_block st ++ [gap_sums unique_tokens (fst counts) (snd counts)] |}.

(** The state before the first gap. *)
Definition initial_state : score_state :=
  {| before_count := Counter.empty; after_count := Counter.empty; sums_block := [] |}.

Definition block_states (k : Z) (token_sequence : list (list string))
    (unique_tokens : list string) : result score_state :=
  for_each (gap_step k token_sequence unique_tokens)
    (range 1 (len token_sequence)) initial_state.

(** The three integer sums of every gap, in gap order. *)
Definition block_sums (k : Z) (token_sequence : list (list string))
    (unique_tokens : list string) : result (list sums) :=
  st <- block_states k token_sequence unique_tokens ;;
  Ok (sums_block st).

(** [numerator / denominator], with a zero denominator replaced by 1. *)
Definition score (s : sums) : R :=
  let denominator := sqrt (IZR (before_sum s * after_sum s)) in
  let denominator := if Req_dec_T denominator 0 then 1%R else denominator in
  (IZR (numerator s) / denominator)%R.

Definition block_score (k : Z) (token_sequence : list (list string))
    (unique_tokens : list string) : result (list R) :=
  block <- block_sums k token_sequence unique_tokens ;;
  Ok (map score block).

(** *** The windows of a gap

    [l[a:b]]: negative bounds count from the end and bounds are clamped to
    the sequence. *)
Definition slice {A : Type} (l : list A) (a b : Z) : list A :=
  let clamp i := if i <? 0 then Z.max (i + len l) 0 else Z.min i (len l) in
  firstn (Z.to_nat (clamp b - clamp a)) (skipn (Z.to_nat (clamp a)) l).

(** The two slices that the gap loop computes (and does not read). *)
Definition before_block (k : Z) (token_sequence : list (list string)) (gap_index : Z)
  : list (list string) :=
  let ck := current_k k (len token_sequence) gap_index in
  slice token_sequence (gap_index - ck) gap_index.

Definition after_block (k : Z) (token_sequence : list (list string)) (gap_index : Z)
  : list (list string) :=
  let ck := current_k k (len token_sequence) gap_index in
  slice token_sequence gap_index (gap_index + ck).

(** The counts of a window: the sum of the counts of its groups. *)
Definition window_count (block : list (list string)) : Counter.t :=
  fold_left (fun c group => Counter.add c (Counter.of_list group)) block Counter.empty.

(** The design document's scorer, following its words: every gap is scored
    from the counts of its own two windows.  It is the reference the source
    is compared with. *)
Definition windowed_sums (k : Z) (token_sequence : list (list string))
    (unique_tokens : list string) (gap_index : Z) : sums :=
  gap_sums unique_tokens
    (window_count (before_block k token_sequence gap_index))
    (window_count (after_block k token_sequence gap_index)).

Definition windowed_block_score (k : Z) (token_sequence : list (list string))
    (unique_tokens : list string) : list R :=
  map (fun gap_index => score (windowed_sums k token_sequence unique_tokens gap_index))
    (range 1 (len token_sequence)).

(** ** Test services: a fixed stop-word list and two lemmatizers *)

Definition identity (word : string) : string := word.

(** Drops one final "s". *)
Fixpoint drop_s (word : string) : string :=
  match word with
  | EmptyString => EmptyString
  | String c EmptyString => if Ascii.eqb c "s"%char then EmptyString else word
  | String c rest => String c (drop_s rest)
  end.

Definition NL : string := String LF EmptyString.

Definition scenario_text : string :=
  "the cat sat on the mat" ++ NL ++ NL ++ "dog ran fast dog ran".

(** Four non-empty lines, two of them without any token. *)
Definition sparse_text : string := "a" ++ NL ++ "1" ++ NL ++ "b" ++ NL ++ "2".

(** Token groups used as test inputs. *)
Definition aba : list (list string) := [["a"]; ["b"]; ["a"]].

Definition aazz : list (list string) := [["a"]; ["a"]; ["z"]; ["z"]].

Definition abc : list (list string) := [["a"]; ["a"; "b"]; ["b"]].

Definition scenario_groups : list (list string) :=
  [["cat"; "sat"]; ["mat"]; ["dog"; "ran"; "fast"]].

Definition scenario_vocabulary : list string :=
  ["cat"; "sat"; "mat"; "dog"; "ran"; "fast"].

(** A Counter as the code builds them: every key once, every count
    positive. *)
Definition well_formed (c : Counter.t) : Prop :=
  NoDup (Counter.keys c) /\ Forall (fun kv => 0 < snd kv) c.

(** Number of occurrences of a word in a list, as an integer. *)
Definition occurrences (l : list string) (word : string) : Z :=
  Z.of_nat (count_occ string_dec l word).

(** What the three sums of a gap satisfy (Cauchy-Schwarz). *)
Definition sums_bounded (s : sums) : Prop :=
  0 <= numerator s /\ 0 <= before_sum s /\ 0 <= after_sum s /\
  numerator s * numerator s <= before_sum s * after_sum s.

(** The words of the windows of gaps 1 to [m], window after window;
    [block] is [before_block k token_sequence] or
    [after_block k token_sequence]. *)
Definition windows_up_to (block : Z -> list (list string)) (m : nat) : list string :=
  List.concat (map (fun gap_index => List.concat (block gap_index))
                 (range 1 (1 + Z.of_nat m))).

(** Two Counters that give every word of the vocabulary the same count. *)
Definition same_counts (v : list string) (c c' : Counter.t) : Prop :=
  forall word, In word v -> Counter.get c word = Counter.get c' word.

(** Two groups in which every word of the vocabulary occurs equally often. *)
Definition same_occurrences (v : list string) (group group' : list string) : Prop :=
  forall word, In word v -> occurrences group word = occurrences group' word.

(** Two runs that raise the same exception or end in related values. *)
Definition result_rel {A B : Type} (R : A -> B -> Prop) (r : result A) (r' : result B)
  : Prop :=
  match r, r' with
  | Ok a, Ok b => R a b
  | Raise e, Raise e' => e = e'
  | _, _ => False
  end.

Definition counts_related (v : list string) (c c' : Counter.t) : Prop :=
  well_formed c /\ well_formed c' /\ same_counts v c c'.

Definition accumulators_related (v : list string) (st st' : Counter.t * Counter.t)
  : Prop :=
  counts_related v (fst st) (fst st') /\ counts_related v (snd st) (snd st').

Definition states_related (v : list string) (st st' : score_state) : Prop :=
  counts_related v (before_count st) (before_count st') /\
  counts_related v (after_count st) (after_count st') /\
  sums_block st = sums_block st'.

(** [word in unique_tokens] *)
Definition in_vocabulary (unique_tokens : list string) (word : string) : bool :=
  existsb (String.eqb word) unique_tokens.

(** The tokens at positions [i * n], ..., [i * n + n - 1] of the stream. *)
Definition chunk (n : nat) (toks : list string) (i : nat) : list string :=
  firstn n (skipn (i * n) toks).

(** A full match of the token pattern, as a test on the characters: the
    first one is a lowercase letter and every one is a lowercase letter or a
    hyphen or apostrophe directly followed by a lowercase letter. *)
Fixpoint joined_runs (l : list ascii) : bool :=
  match l with
  | [] => true
  | c :: rest =>
      (is_lower c
       || (is_joiner c && match rest with c' :: _ => is_lower c' | [] => false end))
      && joined_runs rest
  end.

Definition matches_chars (l : list ascii) : bool :=
  match l with
  | c :: _ => is_lower c && joined_runs l
  | [] => false
  end.

Definition matches_pattern (token : string) : bool :=
  matches_chars (list_ascii_of_string token).

(** What the scanner holds while a match is in progress. *)
Definition scan_state_ok (st : scan_state) : Prop :=
  match st with
  | Idle => True
  | InWord acc => matches_chars (rev acc) = true
  | AfterSep acc sep => matches_chars (rev acc) = true /\ is_joiner sep = true
  end.

(** The text made of the given tokens, each followed by the character
    [sep]. *)
Definition spaced (sep : ascii) (toks : list string) : string :=
  string_of_list_ascii
    (List.concat (map (fun token => (list_ascii_of_string token ++ [sep])%list) toks)).

(** * Properties *)

(** ** Sequences and loops *)

Lemma range_length (lo hi : Z) :
  List.length (range lo hi) = Z.to_nat (hi - lo).
Proof.
  unfold range. rewrite length_map, length_seq. reflexivity.
Qed.

Lemma range_In (lo hi i : Z) : In i (range lo hi) <-> lo <= i < hi.
Proof.
  unfold range. rewrite in_map_iff. split.
  - intros (n & <- & Hn). apply in_seq in Hn. lia.
  - intros H. exists (Z.to_nat (i - lo)). split; [lia|].
    apply in_seq. lia.
Qed.

Lemma range_empty (lo hi : Z) : hi <= lo -> range lo hi = [].
Proof.
  intros H. unfold range.
  replace (Z.to_nat (hi - lo)) with 0%nat by lia. reflexivity.
Qed.

Lemma seq_from (n a : nat) : seq a n = map (fun i => (a + i)%nat) (seq 0 n).
Proof.
  revert a. induction n as [|n IH]; intros a; simpl; [reflexivity|].
  f_equal; [lia|].
  rewrite (IH (S a)), (IH 1%nat), map_map.
  apply map_ext. intros i. lia.
Qed.

Lemma range_split (lo mid hi : Z) :
  lo <= mid <= hi -> range lo hi = (range lo mid ++ range mid hi)%list.
Proof.
  intros H. unfold range.
  replace (Z.to_nat (hi - lo)) with (Z.to_nat (mid - lo) + Z.to_nat (hi - mid))%nat by lia.
  rewrite seq_app, map_app. f_equal.
  simpl. rewrite (seq_from (Z.to_nat (hi - mid)) (Z.to_nat (mid - lo))), map_map.
  apply map_ext. intros i. lia.
Qed.

Lemma for_each_app {A S : Type} (body : S -> A -> result S) (l1 l2 : list A) (st : S) :
  for_each body (l1 ++ l2) st = (st' <- for_each body l1 st ;; for_each body l2 st').
Proof.
  revert st. induction l1 as [|x l1 IH]; intros st; simpl; [reflexivity|].
  destruct (body st x) as [st'|e]; simpl; [apply IH | reflexivity].
Qed.

(** A loop whose body cannot raise on the elements it visits, and keeps an
    invariant, ends normally in a state that satisfies the invariant. *)
Lemma for_each_total {A S : Type} (body : S -> A -> result S) (P : A -> Prop)
    (I : S -> Prop) (l : list A) (st : S) :
  (forall st x, P x -> I st -> exists st', body st x = Ok st' /\ I st') ->
  Forall P l -> I st ->
  exists st', for_each body l st = Ok st' /\ I st'.
Proof.
  intros Hbody Hl. revert st. induction Hl as [|x l Hx Hl IH]; intros st Hst; simpl.
  - exists st. split; [reflexivity | assumption].
  - destruct (Hbody st x Hx Hst) as (st1 & -> & Hst1). simpl. apply IH, Hst1.
Qed.

Lemma getitem_in_range {A : Type} (l : list A) (i : Z) :
  0 <= i < len l -> exists a, getitem l i = Ok a.
Proof.
  intros H. unfold getitem.
  destruct (i <? 0) eqn:Hneg; [apply Z.ltb_lt in Hneg; lia|].
  rewrite Hneg.
  destruct (nth_error l (Z.to_nat i)) as [a|] eqn:Hnth; [exists a; reflexivity|].
  apply nth_error_None in Hnth. unfold len in H. lia.
Qed.

(** ** The windows stay inside the sequence *)

Lemma current_k_bounds (k n gap_index : Z) :
  current_k k n gap_index <= gap_index /\
  current_k k n gap_index <= k /\
  current_k k n gap_index <= n - gap_index.
Proof. unfold current_k. lia. Qed.

Lemma current_k_positive (k n gap_index : Z) :
  0 < k -> 1 <= gap_index < n -> 1 <= current_k k n gap_index.
Proof. unfold current_k. lia. Qed.

Lemma window_indices_in_range (k n gap_index j : Z) :
  1 <= gap_index < n -> 0 <= j < current_k k n gap_index ->
  0 <= gap_index + j - current_k k n gap_index < gap_index /\
  gap_index <= gap_index + j < n.
Proof.
  intros Hg Hj. pose proof (current_k_bounds k n gap_index). lia.
Qed.

Lemma accumulate_total (token_sequence : list (list string)) (k gap_index : Z)
    (st : Counter.t * Counter.t) :
  1 <= gap_index < len token_sequence ->
  exists st',
    for_each (accumulate token_sequence gap_index
                (current_k k (len token_sequence) gap_index))
      (range 0 (current_k k (len token_sequence) gap_index)) st = Ok st'.
Proof.
  intros Hg.
  destruct (for_each_total
              (accumulate token_sequence gap_index
                 (current_k k (len token_sequence) gap_index))
              (fun j => 0 <= j < current_k k (len token_sequence) gap_index)
              (fun _ => True)
              (range 0 (current_k k (len token_sequence) gap_index)) st)
    as (st' & Hst' & _); [| | exact I | exists st'; exact Hst'].
  - intros [b a] j Hj _. unfold accumulate.
    destruct (window_indices_in_range k _ gap_index j Hg Hj) as [Hb Ha].
    destruct (getitem_in_range token_sequence
                (gap_index + j - current_k k (len token_sequence) gap_index))
      as (gb & ->); [lia|].
    destruct (getitem_in_range token_sequence (gap_index + j)) as (ga & ->); [lia|].
    simpl. eexists. split; [reflexivity | exact I].
  - apply Forall_forall. intros j Hj. apply range_In in Hj. exact Hj.
Qed.

Lemma gap_step_total (k : Z) (token_sequence : list (list string))
    (unique_tokens : list string) (st : score_state) (gap_index : Z) :
  1 <= gap_index < len token_sequence ->
  exists st',
    gap_step k token_sequence unique_tokens st gap_index = Ok st' /\
    List.length (sums_block st') = S (List.length (sums_block st)) /\
    firstn (List.length (sums_block st)) (sums_block st') = sums_block st.
Proof.
  intros Hg. unfold gap_step.
  destruct (accumulate_total token_sequence k gap_index
              (before_count st, after_count st) Hg) as (counts & ->).
  simpl. eexists. split; [reflexivity|]. simpl. split.
  - rewrite length_app. simpl. lia.
  - rewrite firstn_app, Nat.sub_diag, firstn_all. simpl. apply app_nil_r.
Qed.

(** Stepping through gaps [lo], [lo+1], ..., [hi-1] appends one entry per
    gap to the block and leaves the entries already present untouched. *)
Lemma gap_steps_total (k : Z) (token_sequence : list (list string))
    (unique_tokens : list string) (gaps : list Z) (st : score_state) :
  Forall (fun g => 1 <= g < len token_sequence) gaps ->
  exists st',
    for_each (gap_step k token_sequence unique_tokens) gaps st = Ok st' /\
    List.length (sums_block st') = (List.length (sums_block st) + List.length gaps)%nat /\
    firstn (List.length (sums_block st)) (sums_block st') = sums_block st.
Proof.
  intros Hgaps. revert st.
  induction Hgaps as [|g gaps Hg Hgaps IH]; intros st; simpl.
  - exists st. split; [reflexivity|]. split; [lia | apply firstn_all].
  - destruct (gap_step_total k token_sequence unique_tokens st g Hg)
      as (st1 & -> & Hlen1 & Hpre1). simpl.
    destruct (IH st1) as (st2 & Hrun & Hlen2 & Hpre2).
    exists st2. split; [exact Hrun|]. split; [lia|].
    rewrite <- Hpre1 at 2. rewrite <- Hpre2 at 1.
    rewrite firstn_firstn. f_equal. lia.
Qed.

Lemma gaps_in_range (lo hi n : Z) :
  1 <= lo -> hi <= n -> Forall (fun g => 1 <= g < n) (range lo hi).
Proof.
  intros Hlo Hhi. apply Forall_forall. intros g Hg. apply range_In in Hg. lia.
Qed.

(** The scorer never raises, whatever [k] is, and emits one entry per gap;
    after the first [m] gaps the block holds the first [m] entries of the
    final block. *)
Lemma block_sums_total (k : Z) (token_sequence : list (list string))
    (unique_tokens : list string) :
  exists block,
    block_sums k token_sequence unique_tokens = Ok block /\
    List.length block = (List.length token_sequence - 1)%nat /\
    forall m : nat, (m < List.length token_sequence)%nat ->
      exists st,
        for_each (gap_step k token_sequence unique_tokens)
          (range 1 (1 + Z.of_nat m)) initial_state = Ok st /\
        sums_block st = firstn m block.
Proof.
  unfold block_sums, block_states.
  destruct (gap_steps_total k token_sequence unique_tokens
              (range 1 (len token_sequence)) initial_state)
    as (st & Hrun & Hlen & _); [apply gaps_in_range; lia|].
  exists (sums_block st). rewrite Hrun. simpl. split; [reflexivity|].
  split; [rewrite Hlen, range_length; unfold len; simpl; lia|].
  intros m Hm.
  rewrite (range_split 1 (1 + Z.of_nat m) (len token_sequence)) in Hrun
    by (unfold len; lia).
  rewrite for_each_app in Hrun.
  destruct (gap_steps_total k token_sequence unique_tokens
              (range 1 (1 + Z.of_nat m)) initial_state)
    as (st1 & Hrun1 & Hlen1 & _); [apply gaps_in_range; unfold len; lia|].
  rewrite Hrun1 in Hrun. cbn [bind] in Hrun.
  destruct (gap_steps_total k token_sequence unique_tokens
              (range (1 + Z.of_nat m) (len token_sequence)) st1)
    as (st2 & Hrun2 & _ & Hpre2); [apply gaps_in_range; unfold len; lia|].
  rewrite Hrun2 in Hrun. injection Hrun as ->.
  exists st1. split; [exact Hrun1|].
  rewrite <- Hpre2. f_equal.
  rewrite Hlen1, range_length. unfold initial_state. cbn [sums_block List.length]. lia.
Qed.

(** C8.  For every group sequence and every [k > 0], [block_score] ends
    normally and returns [len(groups) - 1] scores when there are at least two
    groups and no score otherwise; the scores come in ascending gap order
    (the scores present after gaps 1..m are the first m scores of the result);
    the half-width is at least 1 and every index read by the two windows of a
    gap lies inside the sequence. *)
Theorem block_score_total (k : Z) (token_sequence : list (list string))
    (unique_tokens : list string) :
  0 < k ->
  exists scores,
    block_score k token_sequence unique_tokens = Ok scores /\
    ((2 <= List.length token_sequence)%nat ->
       List.length scores = (List.length token_sequence - 1)%nat) /\
    ((List.length token_sequence < 2)%nat -> scores = []) /\
    (forall m : nat, (m < List.length token_sequence)%nat ->
       exists st,
         for_each (gap_step k token_sequence unique_tokens)
           (range 1 (1 + Z.of_nat m)) initial_state = Ok st /\
         map score (sums_block st) = firstn m scores) /\
    (forall gap_index j : Z,
       1 <= gap_index < len token_sequence ->
       let ck := current_k k (len token_sequence) gap_index in
       1 <= ck /\
       (0 <= j < ck ->
        0 <= gap_index + j - ck < len token_sequence /\
        0 <= gap_index + j < len token_sequence)).
Proof.
  intros Hk.
  destruct (block_sums_total k token_sequence unique_tokens)
    as (block & Hblock & Hlen & Hprefix).
  exists (map score block). unfold block_score. rewrite Hblock. simpl.
  split; [reflexivity|]. split; [intros _; rewrite length_map; exact Hlen|].
  split.
  { intros Hshort. destruct block as [|s block]; [reflexivity|].
    simpl in Hlen. lia. }
  split.
  { intros m Hm. destruct (Hprefix m Hm) as (st & Hrun & Hst).
    exists st. split; [exact Hrun|]. rewrite Hst. symmetry. apply firstn_map. }
  intros gap_index j Hg. split.
  - apply current_k_positive; assumption.
  - intros Hj.
    pose proof (window_indices_in_range k (len token_sequence) gap_index j Hg Hj).
    lia.
Qed.

Lemma block_score_total_witness :
  exists scores,
    block_score 2 [["a"]; ["b"]; ["a"]] ["a"; "b"] = Ok scores /\
    List.length scores = 2%nat.
Proof.
  destruct (block_score_total 2 [["a"]; ["b"]; ["a"]] ["a"; "b"])
    as (scores & Hrun & Hlen & _); [lia|].
  exists scores. split; [exact Hrun|]. apply Hlen. simpl. lia.
Defined.

(** ** The tokenizer: token stream and paragraph breaks *)

Lemma count_tokens_snoc (ps : list (list ascii)) (p : list ascii) :
  count_tokens (ps ++ [p]) = count_step (count_tokens ps) p.
Proof. unfold count_tokens. rewrite fold_left_app. reflexivity. Qed.

Lemma StronglySorted_snoc {A : Type} (R : A -> A -> Prop) (l : list A) (x : A) :
  StronglySorted R l -> Forall (fun y => R y x) l -> StronglySorted R (l ++ [x]).
Proof.
  induction 1 as [|y l Hl IH Hy]; intros Hx; simpl.
  - constructor; constructor.
  - inversion Hx as [|? ? Hyx Hlx]; subst. constructor.
    + apply IH, Hlx.
    + apply Forall_app. split; [exact Hy | constructor; [exact Hyx | constructor]].
Qed.

Lemma len_app {A : Type} (l1 l2 : list A) : len (l1 ++ l2) = len l1 + len l2.
Proof. unfold len. rewrite length_app. lia. Qed.

Lemma len_nonneg {A : Type} (l : list A) : 0 <= len l.
Proof. unfold len. lia. Qed.

Lemma len_positive {A : Type} (l : list A) : l <> [] -> 0 < len l.
Proof. destruct l; [congruence | unfold len; simpl; lia]. Qed.

(** What the loop over the paragraphs has built when it ends. *)
Lemma count_tokens_invariant (ps : list (list ascii)) :
  let st := count_tokens ps in
  tokens st = List.concat (map findall ps) /\
  token_count st = len (tokens st) /\
  List.length (paragraph_breaks st) = List.length ps /\
  StronglySorted Z.le (paragraph_breaks st) /\
  Forall (fun b => 0 <= b <= token_count st) (paragraph_breaks st) /\
  (Forall (fun p => findall p <> []) ps ->
   StronglySorted Z.lt (paragraph_breaks st) /\
   Forall (fun b => 0 < b) (paragraph_breaks st)).
Proof.
  induction ps as [|p ps IH] using rev_ind.
  - simpl. repeat split; constructor.
  - rewrite count_tokens_snoc.
    destruct IH as (Htok & Hcount & Hlen & Hsorted & Hbound & Hstrict).
    set (st := count_tokens ps) in *. unfold count_step. cbn zeta. simpl.
    pose proof (len_nonneg (findall p)) as Hp.
    split; [rewrite Htok, map_app, concat_app; simpl; rewrite app_nil_r; reflexivity|].
    split; [rewrite len_app; lia|].
    split; [rewrite !length_app; simpl; lia|].
    split.
    { apply StronglySorted_snoc; [exact Hsorted|].
      eapply Forall_impl; [|exact Hbound]. simpl. intros b Hb. lia. }
    split.
    { apply Forall_app. split.
      - eapply Forall_impl; [|exact Hbound]. simpl. intros b Hb. lia.
      - constructor; [|constructor]. rewrite Hcount. pose proof (len_nonneg (tokens st)). lia. }
    intros Hall. apply Forall_app in Hall. destruct Hall as [Hps Hp1].
    inversion Hp1 as [|? ? Hpne _]; subst.
    destruct (Hstrict Hps) as [Hlt Hpos].
    pose proof (len_positive _ Hpne) as Hppos.
    split.
    + apply StronglySorted_snoc; [exact Hlt|].
      eapply Forall_impl; [|exact Hbound]. simpl. intros b Hb. lia.
    + apply Forall_app. split; [exact Hpos|].
      constructor; [|constructor]. rewrite Hcount. pose proof (len_nonneg (tokens st)). lia.
Qed.

(** The breaks that [tokenize_string] returns. *)
Lemma returned_breaks_shape (input_string : string) :
  let breaks := drop_last (paragraph_breaks (count_tokens (paragraphs input_string))) in
  List.length breaks = pred (List.length (paragraphs input_string)) /\
  StronglySorted Z.le breaks /\
  Forall (fun b => 0 <= b <= len (raw_tokens input_string)) breaks /\
  (Forall (fun p => findall p <> []) (paragraphs input_string) ->
   StronglySorted Z.lt breaks /\
   Forall (fun b => b < len (raw_tokens input_string)) breaks).
Proof.
  unfold raw_tokens, drop_last.
  destruct (paragraphs input_string) as [|p ps] using rev_ind.
  - simpl. repeat split; constructor.
  - clear IHps. rewrite count_tokens_snoc.
    destruct (count_tokens_invariant ps) as (Htok & Hcount & Hlen & Hsorted & Hbound & Hstrict).
    set (st := count_tokens ps) in *. unfold count_step. cbn zeta. simpl.
    rewrite removelast_last, len_app, length_app. simpl.
    pose proof (len_nonneg (findall p)) as Hp.
    split; [lia|]. split; [exact Hsorted|]. split.
    { eapply Forall_impl; [|exact Hbound]. simpl. intros b Hb. lia. }
    intros Hall. apply Forall_app in Hall. destruct Hall as [Hps Hp1].
    inversion Hp1 as [|? ? Hpne _]; subst.
    destruct (Hstrict Hps) as [Hlt _].
    pose proof (len_positive _ Hpne) as Hppos.
    split; [exact Hlt|].
    eapply Forall_impl; [|exact Hbound]. simpl. intros b Hb. lia.
Qed.

(** ** The tokenizer: grouping *)

Lemma group_step_total (w : Z) (st : group_state) (token : string) :
  w <> 0 -> exists st', group_step w st token = Ok st'.
Proof.
  intros Hw. unfold group_step, py_mod.
  destruct (w =? 0) eqn:E; [apply Z.eqb_eq in E; contradiction|]. simpl.
  destruct ((index st + 1) mod w =? 0); eexists; reflexivity.
Qed.

Lemma group_tokens_total (w : Z) (toks : list string) :
  w <> 0 -> exists groups, group_tokens w toks = Ok groups.
Proof.
  intros Hw. unfold group_tokens.
  destruct (for_each_total (group_step w) (fun _ => True) (fun _ => True) toks
              {| count := Counter.empty; index := 0; token_sequences := [] |})
    as (st & -> & _).
  - intros st x _ _. destruct (group_step_total w st x Hw) as (st' & ->).
    exists st'. split; [reflexivity | exact I].
  - apply Forall_forall. intros; exact I.
  - exact I.
  - simpl. eexists. reflexivity.
Qed.

(** With a non-zero [w] the tokenizer returns; the vocabulary and the breaks
    it returns depend on the text only. *)
Lemma tokenize_string_total (lemmatize : string -> string) (stop_words : list string)
    (input_string : string) (w : Z) :
  w <> 0 ->
  exists groups,
    tokenize_string lemmatize stop_words input_string w =
    Ok (groups,
        filter (fun word => negb (is_stop_word stop_words word))
          (distinct (raw_tokens input_string)),
        drop_last (paragraph_breaks (count_tokens (paragraphs input_string)))).
Proof.
  intros Hw. unfold tokenize_string.
  destruct (group_tokens_total w (tokens (count_tokens (paragraphs input_string))) Hw)
    as (groups & ->).
  simpl. eexists. reflexivity.
Qed.

(** C9 (amended).  For every text and non-zero [w] the tokenizer returns, and
    the returned [paragraph_breaks] has length max(0, number of non-empty
    paragraphs - 1); its values are non-decreasing and lie between 0 and the
    total raw token count; when every non-empty paragraph holds at least one
    token the values are strictly increasing and strictly below the total
    raw token count. *)
Theorem paragraph_breaks_shape (lemmatize : string -> string)
    (stop_words : list string) (input_string : string) (w : Z) :
  w <> 0 ->
  exists groups vocabulary breaks,
    tokenize_string lemmatize stop_words input_string w =
      Ok (groups, vocabulary, breaks) /\
    List.length breaks = pred (List.length (paragraphs input_string)) /\
    StronglySorted Z.le breaks /\
    Forall (fun b => 0 <= b <= len (raw_tokens input_string)) breaks /\
    (Forall (fun p => findall p <> []) (paragraphs input_string) ->
     StronglySorted Z.lt breaks /\
     Forall (fun b => b < len (raw_tokens input_string)) breaks).
Proof.
  intros Hw.
  destruct (tokenize_string_total lemmatize stop_words input_string w Hw)
    as (groups & Hrun).
  do 3 eexists. split; [exact Hrun|]. apply returned_breaks_shape.
Qed.

Lemma paragraph_breaks_shape_witness :
  exists groups vocabulary breaks,
    tokenize_string identity ["the"; "on"] scenario_text 3 =
      Ok (groups, vocabulary, breaks) /\
    List.length breaks = 1%nat /\
    StronglySorted Z.lt breaks.
Proof.
  destruct (paragraph_breaks_shape identity ["the"; "on"] scenario_text 3)
    as (groups & vocabulary & breaks & Hrun & Hlen & _ & _ & Hstrict); [lia|].
  exists groups, vocabulary, breaks. split; [exact Hrun|]. split; [exact Hlen|].
  apply Hstrict. vm_compute. repeat constructor; discriminate.
Defined.

(** C9 as stated fails: four non-empty paragraphs, two of them without any
    token, give the breaks 1, 1, 2 over a stream of 2 tokens; the breaks are
    not strictly increasing and the last one is not below the token count. *)
Lemma paragraph_breaks_not_strict :
  List.length (paragraphs sparse_text) = 4%nat /\
  raw_tokens sparse_text = ["a"; "b"] /\
  tokenize_string identity [] sparse_text 1 =
    Ok ([["a"]; ["b"]], ["a"; "b"], [1; 1; 2]) /\
  ~ StronglySorted Z.lt [1; 1; 2] /\
  ~ Forall (fun b => b < len (raw_tokens sparse_text)) [1; 1; 2].
Proof.
  split; [reflexivity|]. split; [reflexivity|]. split; [reflexivity|]. split.
  - intros H. inversion H as [|? ? _ Hall]; subst.
    inversion Hall as [|? ? Hlt _]; subst. lia.
  - intros H. inversion H as [|? ? _ H1]; subst.
    inversion H1 as [|? ? _ H2]; subst.
    inversion H2 as [|? ? Hlt _]; subst. vm_compute in Hlt. discriminate.
Qed.

(** ** The tokenizer: vocabulary *)

Lemma distinct_In (l : list string) (x : string) : In x (distinct l) <-> In x l.
Proof.
  induction l as [|y l IH]; simpl; [tauto|].
  rewrite filter_In, IH. destruct (String.eqb_spec x y) as [->|Hne]; simpl.
  - split; [intros [H|[_ H]]; [left; exact H | discriminate] | intros _; left; reflexivity].
  - split.
    + intros [H|[H _]]; [left; exact H | right; exact H].
    + intros [H|H]; [left; exact H | right; split; [exact H | reflexivity]].
Qed.

Lemma distinct_NoDup (l : list string) : NoDup (distinct l).
Proof.
  induction l as [|y l IH]; simpl; constructor.
  - rewrite filter_In. intros [_ H]. rewrite String.eqb_refl in H. discriminate.
  - apply NoDup_filter, IH.
Qed.

Lemma is_stop_word_In (stop_words : list string) (word : string) :
  is_stop_word stop_words word = true <-> In word stop_words.
Proof.
  unfold is_stop_word. rewrite existsb_exists. split.
  - intros (x & Hx & Heq). apply String.eqb_eq in Heq. subst. exact Hx.
  - intros H. exists word. split; [exact H | apply String.eqb_refl].
Qed.

(** C10.  For every text and non-zero [w] the tokenizer returns, and the
    returned vocabulary lists, without repetition, exactly the raw tokens of
    the text that are no stop words; it is the same list whatever the
    lemmatizer is, so its members are raw forms. *)
Theorem vocabulary_raw_content_words (lemmatize : string -> string)
    (stop_words : list string) (input_string : string) (w : Z) :
  w <> 0 ->
  exists groups vocabulary breaks,
    tokenize_string lemmatize stop_words input_string w =
      Ok (groups, vocabulary, breaks) /\
    NoDup vocabulary /\
    (forall word,
       In word vocabulary <->
       In word (raw_tokens input_string) /\ ~ In word stop_words) /\
    (forall lemmatize' : string -> string,
       exists groups',
         tokenize_string lemmatize' stop_words input_string w =
           Ok (groups', vocabulary, breaks)).
Proof.
  intros Hw.
  destruct (tokenize_string_total lemmatize stop_words input_string w Hw)
    as (groups & Hrun).
  do 3 eexists. split; [exact Hrun|]. split; [|split].
  - apply NoDup_filter, distinct_NoDup.
  - intros word. rewrite filter_In, distinct_In, negb_true_iff.
    rewrite <- (is_stop_word_In stop_words word).
    destruct (is_stop_word stop_words word); intuition congruence.
  - intros lemmatize'.
    apply (tokenize_string_total lemmatize' stop_words input_string w Hw).
Qed.

Lemma vocabulary_raw_content_words_witness :
  exists groups vocabulary breaks,
    tokenize_string drop_s ["is"] "grass is fast" 3 = Ok (groups, vocabulary, breaks) /\
    (In "grass" vocabulary /\ ~ In "is" vocabulary).
Proof.
  destruct (vocabulary_raw_content_words drop_s ["is"] "grass is fast" 3)
    as (groups & vocabulary & breaks & Hrun & _ & Hmem & _); [lia|].
  exists groups, vocabulary, breaks. split; [exact Hrun|]. split.
  - apply Hmem. split; [vm_compute; tauto|].
    simpl. intros [H|[]]. discriminate.
  - intros H. apply Hmem in H. destruct H as [_ H]. apply H. simpl. left. reflexivity.
Defined.

(** ** Arguments that are not positive *)

Lemma for_each_ext {A S : Type} (f g : S -> A -> result S) (l : list A) (st : S) :
  (forall st x, f st x = g st x) -> for_each f l st = for_each g l st.
Proof.
  intros Hfg. revert st. induction l as [|x l IH]; intros st; simpl; [reflexivity|].
  rewrite Hfg. destruct (g st x); simpl; [apply IH | reflexivity].
Qed.

Lemma mod_opp_eqb (a w : Z) : w <> 0 -> (a mod (- w) =? 0) = (a mod w =? 0).
Proof.
  intros Hw. apply eq_true_iff_eq. rewrite !Z.eqb_eq.
  rewrite !Z.mod_divide by lia. apply Z.divide_opp_l.
Qed.

Lemma group_step_opp (w : Z) (st : group_state) (token : string) :
  group_step (- w) st token = group_step w st token.
Proof.
  unfold group_step, py_mod.
  destruct (Z.eqb_spec w 0) as [->|Hw]; [reflexivity|].
  destruct (Z.eqb_spec (- w) 0) as [H|_]; [lia|].
  simpl. rewrite mod_opp_eqb by exact Hw. reflexivity.
Qed.

Lemma tokenize_string_opp (lemmatize : string -> string) (stop_words : list string)
    (input_string : string) (w : Z) :
  tokenize_string lemmatize stop_words input_string (- w) =
  tokenize_string lemmatize stop_words input_string w.
Proof.
  unfold tokenize_string, group_tokens.
  rewrite (for_each_ext (group_step (- w)) (group_step w)); [reflexivity|].
  intros st x. apply group_step_opp.
Qed.

Lemma tokenize_string_zero (lemmatize : string -> string) (stop_words : list string)
    (input_string : string) :
  tokenize_string lemmatize stop_words input_string 0 =
  match raw_tokens input_string with
  | [] => Ok ([], [], drop_last (paragraph_breaks (count_tokens (paragraphs input_string))))
  | _ :: _ => Raise ZeroDivisionError
  end.
Proof.
  unfold tokenize_string, raw_tokens.
  destruct (tokens (count_tokens (paragraphs input_string))); reflexivity.
Qed.

Lemma gap_sums_empty (unique_tokens : list string) :
  gap_sums unique_tokens Counter.empty Counter.empty = zero_sums.
Proof.
  unfold gap_sums. generalize zero_sums.
  induction unique_tokens as [|token l IH]; intros s; simpl; [reflexivity|].
  rewrite IH. destruct s as [n b a]. unfold add_token. simpl.
  f_equal; lia.
Qed.

Lemma gap_step_nonpositive (k : Z) (token_sequence : list (list string))
    (unique_tokens : list string) (st : score_state) (gap_index : Z) :
  k <= 0 ->
  gap_step k token_sequence unique_tokens st gap_index =
  Ok {| before_count := before_count st;
        after_count := after_count st;
        sums_block :=
          sums_block st ++ [gap_sums unique_tokens (before_count st) (after_count st)] |}.
Proof.
  intros Hk. unfold gap_step.
  rewrite range_empty; [reflexivity|].
  pose proof (current_k_bounds k (len token_sequence) gap_index). lia.
Qed.

Lemma gap_steps_nonpositive (k : Z) (token_sequence : list (list string))
    (unique_tokens : list string) (gaps : list Z) (block : list sums) :
  k <= 0 ->
  for_each (gap_step k token_sequence unique_tokens) gaps
    {| before_count := Counter.empty; after_count := Counter.empty; sums_block := block |} =
  Ok {| before_count := Counter.empty; after_count := Counter.empty;
        sums_block := block ++ repeat zero_sums (List.length gaps) |}.
Proof.
  intros Hk. revert block.
  induction gaps as [|g gaps IH]; intros block; simpl.
  - rewrite app_nil_r. reflexivity.
  - rewrite gap_step_nonpositive by exact Hk. simpl.
    rewrite gap_sums_empty, IH, <- app_assoc. reflexivity.
Qed.

Lemma block_sums_nonpositive (k : Z) (token_sequence : list (list string))
    (unique_tokens : list string) :
  k <= 0 ->
  block_sums k token_sequence unique_tokens =
  Ok (repeat zero_sums (List.length token_sequence - 1)).
Proof.
  intros Hk. unfold block_sums, block_states, initial_state.
  rewrite gap_steps_nonpositive by exact Hk. simpl.
  rewrite range_length. do 2 f_equal. unfold len. lia.
Qed.

(** ** The score as a real number *)

Lemma score_numerator_zero (s : sums) : numerator s = 0 -> score s = 0%R.
Proof.
  intros H. unfold score. rewrite H. unfold Rdiv. apply Rmult_0_l.
Qed.

Lemma score_denominator_positive (s : sums) :
  (0 < (if Req_dec_T (sqrt (IZR (before_sum s * after_sum s))) 0
        then 1 else sqrt (IZR (before_sum s * after_sum s))))%R.
Proof.
  destruct (Req_dec_T _ 0) as [_|Hne]; [lra|].
  pose proof (sqrt_pos (IZR (before_sum s * after_sum s))). lra.
Qed.

Lemma score_regular (s : sums) :
  0 < before_sum s * after_sum s ->
  score s = (IZR (numerator s) / sqrt (IZR (before_sum s * after_sum s)))%R.
Proof.
  intros H. unfold score.
  destruct (Req_dec_T _ 0) as [Hz|_]; [|reflexivity].
  apply sqrt_eq_0 in Hz; [|apply IZR_le; lia].
  apply eq_IZR in Hz. lia.
Qed.

Lemma score_positive (s : sums) : 0 < numerator s -> (0 < score s)%R.
Proof.
  intros H. unfold score. apply Rdiv_lt_0_compat.
  - apply IZR_lt. exact H.
  - apply score_denominator_positive.
Qed.

(** C5 (amended).  Neither function checks its argument.  With [w < 0] the
    tokenizer returns, and returns what it returns for [-w]; with [w = 0] it
    raises ZeroDivisionError when the text holds at least one token and
    returns empty groups and an empty vocabulary when it holds none; with
    [k <= 0] the scorer returns [len(groups) - 1] scores, all equal to 0. *)
Theorem no_argument_validation (lemmatize : string -> string)
    (stop_words : list string) (input_string : string) (w k : Z)
    (token_sequence : list (list string)) (unique_tokens : list string) :
  (w < 0 ->
   exists r,
     tokenize_string lemmatize stop_words input_string w = Ok r /\
     tokenize_string lemmatize stop_words input_string (- w) = Ok r) /\
  (w = 0 -> raw_tokens input_string <> [] ->
   tokenize_string lemmatize stop_words input_string w = Raise ZeroDivisionError) /\
  (w = 0 -> raw_tokens input_string = [] ->
   exists breaks,
     tokenize_string lemmatize stop_words input_string w = Ok ([], [], breaks)) /\
  (k <= 0 ->
   block_score k token_sequence unique_tokens =
   Ok (repeat 0%R (List.length token_sequence - 1))).
Proof.
  split; [|split; [|split]].
  - intros Hw.
    destruct (tokenize_string_total lemmatize stop_words input_string w) as (g & Hg);
      [lia|].
    eexists. split; [exact Hg|]. rewrite tokenize_string_opp. exact Hg.
  - intros -> Hne. rewrite tokenize_string_zero.
    destruct (raw_tokens input_string); [contradiction | reflexivity].
  - intros -> He. rewrite tokenize_string_zero, He. eexists. reflexivity.
  - intros Hk. unfold block_score. rewrite block_sums_nonpositive by exact Hk.
    simpl. f_equal. induction (List.length token_sequence - 1)%nat as [|n IH]; simpl.
    + reflexivity.
    + rewrite IH. f_equal. apply score_numerator_zero. reflexivity.
Qed.

Lemma no_argument_validation_witness :
  (exists r,
     tokenize_string identity ["the"; "on"] scenario_text (-3) = Ok r /\
     tokenize_string identity ["the"; "on"] scenario_text 3 = Ok r) /\
  tokenize_string identity ["the"; "on"] scenario_text 0 = Raise ZeroDivisionError /\
  (exists breaks, tokenize_string identity [] "1 2 3" 0 = Ok ([], [], breaks)) /\
  block_score (-1) [["a"]; ["b"]; ["a"]] ["a"; "b"] = Ok [0%R; 0%R].
Proof.
  split; [|split; [|split]].
  - apply (no_argument_validation identity ["the"; "on"] scenario_text (-3) 0 [] []).
    lia.
  - apply (no_argument_validation identity ["the"; "on"] scenario_text 0 0 [] []).
    + reflexivity.
    + vm_compute. discriminate.
  - apply (no_argument_validation identity [] "1 2 3" 0 0 [] []); reflexivity.
  - apply (no_argument_validation identity [] "" 1 (-1) [["a"]; ["b"]; ["a"]] ["a"; "b"]).
    lia.
Defined.

(** C5 as stated fails: with [w = -3] the tokenizer returns the groups it
    returns for [w = 3], and with [k = 0] the scorer returns two scores;
    neither call ends in an error. *)
Lemma nonpositive_arguments_accepted :
  tokenize_string identity ["the"; "on"] scenario_text (-3) =
    Ok ([["cat"; "sat"]; ["mat"]; ["dog"; "ran"; "fast"]],
        ["cat"; "sat"; "mat"; "dog"; "ran"; "fast"], [6]) /\
  ~ is_error (tokenize_string identity ["the"; "on"] scenario_text (-3)) /\
  block_score 0 [["a"]; ["b"]; ["a"]] ["a"; "b"] = Ok [0%R; 0%R] /\
  ~ is_error (block_score 0 [["a"]; ["b"]; ["a"]] ["a"; "b"]).
Proof.
  assert (Hs : block_score 0 [["a"]; ["b"]; ["a"]] ["a"; "b"] = Ok [0%R; 0%R]).
  { unfold block_score. rewrite block_sums_nonpositive by lia. simpl.
    rewrite !score_numerator_zero by reflexivity. reflexivity. }
  split; [reflexivity|]. split; [intros [e He]; vm_compute in He; discriminate|].
  split; [exact Hs|]. intros [e He]. rewrite Hs in He. discriminate.
Qed.

Lemma score_square (s : sums) (d : Z) :
  0 < d -> before_sum s * after_sum s = d * d ->
  score s = (IZR (numerator s) / IZR d)%R.
Proof.
  intros Hd Hsq. rewrite score_regular by lia.
  rewrite Hsq, mult_IZR, sqrt_square; [reflexivity|].
  apply IZR_le. lia.
Qed.

(** ** The accumulators are carried from gap to gap *)

Lemma block_score_aba : block_score 1 aba ["a"; "b"] = Ok [0%R; 1%R].
Proof.
  unfold block_score.
  replace (block_sums 1 aba ["a"; "b"])
    with (Ok [ {| numerator := 0; before_sum := 1; after_sum := 1 |};
               {| numerator := 2; before_sum := 2; after_sum := 2 |} ])
    by (vm_compute; reflexivity).
  simpl. rewrite score_numerator_zero by reflexivity.
  rewrite (score_square _ 2) by (simpl; lia). simpl.
  do 3 f_equal. field.
Qed.

Lemma windowed_block_score_aba : windowed_block_score 1 aba ["a"; "b"] = [0%R; 0%R].
Proof.
  unfold windowed_block_score.
  replace (range 1 (len aba)) with [1; 2] by reflexivity. simpl.
  rewrite !score_numerator_zero by (vm_compute; reflexivity). reflexivity.
Qed.

(** C1.  On the groups [a], [b], [a] with k = 1 the second gap has the
    windows [b] and [a], yet the counts that the source scores it with are
    those of the first gap plus those windows: "a" is counted once before
    the gap and "b" once after it, and the score is 1 where the windows alone
    give 0. *)
Theorem accumulators_not_reset :
  before_block 1 aba 2 = [["b"]] /\
  after_block 1 aba 2 = [["a"]] /\
  Counter.get (window_count (before_block 1 aba 2)) "a" = 0 /\
  Counter.get (window_count (after_block 1 aba 2)) "b" = 0 /\
  (exists st,
     block_states 1 aba ["a"; "b"] = Ok st /\
     Counter.get (before_count st) "a" = 1 /\
     Counter.get (before_count st) "b" = 1 /\
     Counter.get (after_count st) "a" = 1 /\
     Counter.get (after_count st) "b" = 1) /\
  block_score 1 aba ["a"; "b"] = Ok [0%R; 1%R] /\
  windowed_block_score 1 aba ["a"; "b"] = [0%R; 0%R].
Proof.
  split; [reflexivity|]. split; [reflexivity|].
  split; [reflexivity|]. split; [reflexivity|].
  split.
  { eexists. split; [vm_compute; reflexivity|]. repeat split. }
  split; [apply block_score_aba | apply windowed_block_score_aba].
Qed.

(** C2.  On the scenario text with w = 3, stop words the and on, and the
    identity lemmatizer, the tokenizer returns the three groups, the breaks
    and the vocabulary of the scenario; with k = 1 the scorer returns two
    scores, the first 0 and the second 1 / sqrt 12, which is not 0: at the
    second gap "mat" is still counted before the gap and already counted
    after it. *)
Theorem scenario_second_score_nonzero :
  tokenize_string identity ["the"; "on"] scenario_text 3 =
    Ok (scenario_groups, scenario_vocabulary, [6]) /\
  raw_tokens scenario_text =
    ["the"; "cat"; "sat"; "on"; "the"; "mat"; "dog"; "ran"; "fast"; "dog"; "ran"] /\
  block_score 1 scenario_groups scenario_vocabulary = Ok [0%R; (1 / sqrt 12)%R] /\
  (1 / sqrt 12 <> 0)%R /\
  windowed_block_score 1 scenario_groups scenario_vocabulary = [0%R; 0%R].
Proof.
  split; [reflexivity|]. split; [reflexivity|].
  assert (Hsums : block_sums 1 scenario_groups scenario_vocabulary =
                  Ok [ {| numerator := 0; before_sum := 2; after_sum := 1 |};
                       {| numerator := 1; before_sum := 3; after_sum := 4 |} ])
    by (vm_compute; reflexivity).
  split.
  { unfold block_score. rewrite Hsums. simpl.
    rewrite score_numerator_zero by reflexivity.
    rewrite score_regular by (simpl; lia). reflexivity. }
  split.
  { pose proof (score_positive {| numerator := 1; before_sum := 3; after_sum := 4 |}) as H.
    rewrite score_regular in H by (simpl; lia). simpl in H.
    specialize (H ltac:(lia)). lra. }
  unfold windowed_block_score.
  replace (range 1 (len scenario_groups)) with [1; 2] by reflexivity. simpl.
  rewrite !score_numerator_zero by (vm_compute; reflexivity). reflexivity.
Qed.

(** C6.  On the groups [a], [a], [z], [z] with the vocabulary {a} and k = 1,
    the two windows of the third gap, [z] and [z], hold no vocabulary word,
    yet the source scores the gap 1: the sums are taken over the counts
    carried from the first two gaps and the denominator is 2, not 0. *)
Theorem empty_windows_scored_one :
  before_block 1 aazz 3 = [["z"]] /\
  after_block 1 aazz 3 = [["z"]] /\
  windowed_sums 1 aazz ["a"] 3 = zero_sums /\
  block_sums 1 aazz ["a"] =
    Ok [ {| numerator := 1; before_sum := 1; after_sum := 1 |};
         {| numerator := 2; before_sum := 4; after_sum := 1 |};
         {| numerator := 2; before_sum := 4; after_sum := 1 |} ] /\
  block_score 1 aazz ["a"] = Ok [1%R; 1%R; 1%R] /\
  windowed_block_score 1 aazz ["a"] = [1%R; 0%R; 0%R].
Proof.
  split; [reflexivity|]. split; [reflexivity|]. split; [reflexivity|].
  assert (Hsums : block_sums 1 aazz ["a"] =
    Ok [ {| numerator := 1; before_sum := 1; after_sum := 1 |};
         {| numerator := 2; before_sum := 4; after_sum := 1 |};
         {| numerator := 2; before_sum := 4; after_sum := 1 |} ])
    by (vm_compute; reflexivity).
  split; [exact Hsums|]. split.
  - unfold block_score. rewrite Hsums. simpl.
    rewrite (score_square _ 1) by (simpl; lia).
    rewrite (score_square _ 2) by (simpl; lia). simpl.
    repeat f_equal; field.
  - unfold windowed_block_score.
    replace (range 1 (len aazz)) with [1; 2; 3] by reflexivity. simpl.
    replace (windowed_sums 1 aazz ["a"] 1)
      with {| numerator := 1; before_sum := 1; after_sum := 1 |} by reflexivity.
    rewrite (score_square _ 1) by (simpl; lia).
    rewrite !score_numerator_zero by (vm_compute; reflexivity). simpl.
    repeat f_equal; field.
Qed.

(** C7.  The groups [a], [b], [a] read the same in both directions, so the
    reversed sequence is scored 0, 1 like the sequence itself; the original
    scores in reverse order are 1, 0. *)
Theorem reversal_not_symmetric :
  block_score 1 aba ["a"; "b"] = Ok [0%R; 1%R] /\
  block_score 1 (rev aba) ["a"; "b"] = Ok [0%R; 1%R] /\
  [0%R; 1%R] <> rev [0%R; 1%R].
Proof.
  split; [apply block_score_aba|]. split; [apply block_score_aba|].
  simpl. intros H. injection H as H _. lra.
Qed.

(** ** The tokenizer: case and group contents *)

(** C3.  The input is matched as it is, without case folding: "The" yields
    the token "he" and "Cat" the token "at", while the lowercased text
    yields "the" and "cat"; groups and vocabulary differ accordingly. *)
Theorem uppercase_letters_split_tokens :
  raw_tokens "The Cat sat" = ["he"; "at"; "sat"] /\
  lower "The Cat sat" = "the cat sat" /\
  raw_tokens (lower "The Cat sat") = ["the"; "cat"; "sat"] /\
  tokenize_string identity [] "The" 1 = Ok ([["he"]], ["he"], []) /\
  tokenize_string identity [] (lower "The") 1 = Ok ([["the"]], ["the"], []).
Proof. repeat split. Qed.

Lemma keys_set (c : Counter.t) (k : string) (v : Z) :
  Counter.keys (Counter.set c k v) =
  if Counter.mem c k then Counter.keys c else (Counter.keys c ++ [k])%list.
Proof.
  unfold Counter.keys.
  induction c as [|[k' v'] c IH]; simpl; [reflexivity|].
  destruct (String.eqb k k') eqn:E; simpl; [reflexivity|].
  rewrite IH. destruct (Counter.mem c k); reflexivity.
Qed.

Lemma mem_keys (c : Counter.t) (k : string) :
  Counter.mem c k = true <-> In k (Counter.keys c).
Proof.
  induction c as [|[k' v'] c IH]; simpl; [split; [discriminate | tauto]|].
  rewrite orb_true_iff, IH, String.eqb_eq. split; intros [H|H]; auto.
Qed.


(** The groups that [tokenize_string] returns: the keys of each Counter that
    are no stop words, lemmatized twice. *)
Lemma returned_groups_shape (lemmatize : string -> string) (stop_words : list string)
    (input_string : string) (w : Z) (counters : list Counter.t) :
  group_tokens w (raw_tokens input_string) = Ok counters ->
  exists vocabulary breaks,
    tokenize_string lemmatize stop_words input_string w =
    Ok (map (fun c =>
               map (fun word => lemmatize (lemmatize word))
                 (filter (fun word => negb (is_stop_word stop_words word))
                    (Counter.keys c)))
          counters,
        vocabulary, breaks).
Proof.
  intros H. unfold tokenize_string. unfold raw_tokens in H. rewrite H. simpl.
  do 2 eexists. do 3 f_equal. rewrite map_map. apply map_ext. intros c.
  unfold lemmatize_group, remove_stop_words. apply map_map.
Qed.

(** C4.  A group of the three tokens dog, dog, cat is returned as the words
    dog and cat, once each, so the scorer counts "dog" once; and a group is
    lemmatized twice: with a lemmatizer that drops one final s, "grass" is
    returned as "gra" though its lemma is "gras".  Stop words are removed by
    their surface form before lemmatizing: "is" is dropped as it stands. *)
Theorem group_counts_lost_and_lemmatized_twice :
  raw_tokens "dog dog cat" = ["dog"; "dog"; "cat"] /\
  group_tokens 3 (raw_tokens "dog dog cat") = Ok [[("dog", 2); ("cat", 1)]] /\
  tokenize_string identity [] "dog dog cat" 3 =
    Ok ([["dog"; "cat"]], ["dog"; "cat"], []) /\
  Counter.get (Counter.of_list ["dog"; "cat"]) "dog" = 1 /\
  drop_s "grass" = "gras" /\
  tokenize_string drop_s [] "grass is fast" 3 =
    Ok ([["gra"; "i"; "fast"]], ["grass"; "is"; "fast"], []) /\
  tokenize_string drop_s ["is"] "grass is fast" 3 =
    Ok ([["gra"; "fast"]], ["grass"; "fast"], []).
Proof. repeat split. Qed.


(** ** Counters *)

Lemma get_set (c : Counter.t) (k k' : string) (v : Z) :
  Counter.get (Counter.set c k v) k' = if String.eqb k' k then v else Counter.get c k'.
Proof.
  induction c as [|[k0 v0] c IH]; simpl; [reflexivity|].
  destruct (String.eqb_spec k k0) as [->|Hne]; simpl.
  - destruct (String.eqb k' k0); reflexivity.
  - rewrite IH. destruct (String.eqb_spec k' k0) as [->|Hne'].
    + destruct (String.eqb_spec k0 k) as [->|_]; [contradiction | reflexivity].
    + reflexivity.
Qed.

Lemma get_not_mem (c : Counter.t) (k : string) :
  Counter.mem c k = false -> Counter.get c k = 0.
Proof.
  induction c as [|[k0 v0] c IH]; simpl; [reflexivity|].
  destruct (String.eqb k k0); simpl; [discriminate | exact IH].
Qed.

Lemma get_mem_positive (c : Counter.t) (k : string) :
  Forall (fun kv => 0 < snd kv) c -> Counter.mem c k = true -> 0 < Counter.get c k.
Proof.
  induction 1 as [|[k0 v0] c Hv Hc IH]; simpl; [discriminate|].
  destruct (String.eqb k k0); simpl; [intros _; exact Hv | exact IH].
Qed.

Lemma get_nonneg (c : Counter.t) (k : string) :
  well_formed c -> 0 <= Counter.get c k.
Proof.
  intros [_ Hpos]. destruct (Counter.mem c k) eqn:E.
  - pose proof (get_mem_positive c k Hpos E). lia.
  - rewrite get_not_mem by exact E. lia.
Qed.

Lemma set_positive (c : Counter.t) (k : string) (v : Z) :
  0 < v -> Forall (fun kv => 0 < snd kv) c ->
  Forall (fun kv => 0 < snd kv) (Counter.set c k v).
Proof.
  intros Hv. induction 1 as [|[k0 v0] c H0 Hc IH]; simpl.
  - constructor; [exact Hv | constructor].
  - destruct (String.eqb k k0); constructor; auto.
Qed.

Lemma set_keys_NoDup (c : Counter.t) (k : string) (v : Z) :
  NoDup (Counter.keys c) -> NoDup (Counter.keys (Counter.set c k v)).
Proof.
  intros Hc. rewrite keys_set. destruct (Counter.mem c k) eqn:E; [exact Hc|].
  apply NoDup_app; [exact Hc | repeat constructor; simpl; tauto |].
  intros y Hy [<-|[]]. apply mem_keys in Hy. congruence.
Qed.

Lemma well_formed_empty : well_formed Counter.empty.
Proof. split; constructor. Qed.

Lemma well_formed_set (c : Counter.t) (k : string) (v : Z) :
  0 < v -> well_formed c -> well_formed (Counter.set c k v).
Proof.
  intros Hv [Hk Hp]. split; [apply set_keys_NoDup, Hk | apply set_positive; assumption].
Qed.

Lemma well_formed_incr (c : Counter.t) (k : string) :
  well_formed c -> well_formed (Counter.incr c k).
Proof.
  intros Hc. apply well_formed_set; [|exact Hc].
  pose proof (get_nonneg c k Hc). lia.
Qed.

Lemma occurrences_nil (word : string) : occurrences [] word = 0.
Proof. reflexivity. Qed.

Lemma occurrences_cons (x : string) (l : list string) (word : string) :
  occurrences (x :: l) word =
  (if String.eqb word x then 1 else 0) + occurrences l word.
Proof.
  unfold occurrences. simpl.
  destruct (string_dec x word) as [->|Hne].
  - rewrite String.eqb_refl. lia.
  - destruct (String.eqb_spec word x) as [->|_]; [contradiction | lia].
Qed.

Lemma occurrences_app (l1 l2 : list string) (word : string) :
  occurrences (l1 ++ l2) word = occurrences l1 word + occurrences l2 word.
Proof. unfold occurrences. rewrite count_occ_app. lia. Qed.

Lemma occurrences_nonneg (l : list string) (word : string) : 0 <= occurrences l word.
Proof. unfold occurrences. lia. Qed.

Lemma fold_incr (l : list string) (c : Counter.t) :
  well_formed c ->
  well_formed (fold_left Counter.incr l c) /\
  forall word,
    Counter.get (fold_left Counter.incr l c) word = Counter.get c word + occurrences l word.
Proof.
  revert c. induction l as [|x l IH]; intros c Hc; simpl.
  - split; [exact Hc|]. intros word. rewrite occurrences_nil. lia.
  - destruct (IH (Counter.incr c x) (well_formed_incr c x Hc)) as [Hwf Hget].
    split; [exact Hwf|]. intros word.
    rewrite Hget, occurrences_cons. unfold Counter.incr. rewrite get_set.
    destruct (String.eqb_spec word x) as [->|_]; lia.
Qed.

(** [Counter(l)[word]] is the number of occurrences of [word] in [l]. *)
Lemma get_of_list (l : list string) (word : string) :
  Counter.get (Counter.of_list l) word = occurrences l word.
Proof.
  unfold Counter.of_list.
  destruct (fold_incr l Counter.empty well_formed_empty) as [_ H].
  rewrite H. reflexivity.
Qed.

Lemma well_formed_of_list (l : list string) : well_formed (Counter.of_list l).
Proof. apply fold_incr, well_formed_empty. Qed.

Lemma mem_not_In (c : Counter.t) (k : string) :
  ~ In k (Counter.keys c) -> Counter.mem c k = false.
Proof.
  intros H. destruct (Counter.mem c k) eqn:E; [|reflexivity].
  apply mem_keys in E. contradiction.
Qed.

(** First loop of [a + b]: the keys of [a]. *)
Lemma add_first_loop (b a res : Counter.t) (word : string) :
  NoDup (Counter.keys a) ->
  Counter.get
    (fold_left
       (fun res kv =>
          let newcount := snd kv + Counter.get b (fst kv) in
          if 0 <? newcount then Counter.set res (fst kv) newcount else res)
       a res) word =
  if Counter.mem a word && (0 <? Counter.get a word + Counter.get b word)
  then Counter.get a word + Counter.get b word
  else Counter.get res word.
Proof.
  revert res. induction a as [|[k v] a IH]; intros res Hnd; simpl; [reflexivity|].
  inversion Hnd as [|? ? Hk Hnd']; subst. rewrite IH by exact Hnd'.
  destruct (String.eqb_spec word k) as [->|Hne]; simpl.
  - rewrite (mem_not_In a k Hk). simpl.
    destruct (0 <? v + Counter.get b k) eqn:E; [|reflexivity].
    rewrite get_set, String.eqb_refl. reflexivity.
  - destruct (Counter.mem a word && (0 <? Counter.get a word + Counter.get b word));
      [reflexivity|].
    destruct (0 <? v + Counter.get b k); [|reflexivity].
    rewrite get_set. destruct (String.eqb_spec word k); [contradiction | reflexivity].
Qed.

(** Second loop of [a + b]: the keys of [b] that [a] does not have. *)
Lemma add_second_loop (a b res : Counter.t) (word : string) :
  NoDup (Counter.keys b) ->
  Counter.get
    (fold_left
       (fun res kv =>
          if negb (Counter.mem a (fst kv)) && (0 <? snd kv)
          then Counter.set res (fst kv) (snd kv) else res)
       b res) word =
  if Counter.mem b word && (negb (Counter.mem a word) && (0 <? Counter.get b word))
  then Counter.get b word
  else Counter.get res word.
Proof.
  revert res. induction b as [|[k v] b IH]; intros res Hnd; simpl; [reflexivity|].
  inversion Hnd as [|? ? Hk Hnd']; subst. rewrite IH by exact Hnd'.
  destruct (String.eqb_spec word k) as [->|Hne]; simpl.
  - rewrite (mem_not_In b k Hk). simpl.
    destruct (negb (Counter.mem a k) && (0 <? v)) eqn:E; [|reflexivity].
    rewrite get_set, String.eqb_refl. reflexivity.
  - destruct (Counter.mem b word && (negb (Counter.mem a word) && (0 <? Counter.get b word)));
      [reflexivity|].
    destruct (negb (Counter.mem a k) && (0 <? v)); [|reflexivity].
    rewrite get_set. destruct (String.eqb_spec word k); [contradiction | reflexivity].
Qed.

Lemma well_formed_fold_set {A : Type} (l : list A) (res : Counter.t)
    (test : A -> bool) (key : A -> string) (val : A -> Z) :
  (forall x, test x = true -> 0 < val x) ->
  well_formed res ->
  well_formed
    (fold_left (fun res x => if test x then Counter.set res (key x) (val x) else res) l res).
Proof.
  intros Hval. revert res. induction l as [|x l IH]; intros res Hres; simpl; [exact Hres|].
  apply IH. destruct (test x) eqn:E; [|exact Hres].
  apply well_formed_set; [apply Hval, E | exact Hres].
Qed.

Lemma well_formed_add (a b : Counter.t) : well_formed (Counter.add a b).
Proof.
  unfold Counter.add.
  apply (well_formed_fold_set b _
           (fun kv => negb (Counter.mem a (fst kv)) && (0 <? snd kv)) fst snd).
  { intros x H. apply andb_true_iff in H. destruct H as [_ H]. apply Z.ltb_lt, H. }
  apply (well_formed_fold_set a _
           (fun kv => 0 <? snd kv + Counter.get b (fst kv)) fst
           (fun kv => snd kv + Counter.get b (fst kv))).
  { intros x H. apply Z.ltb_lt, H. }
  apply well_formed_empty.
Qed.

(** On Counters as the code builds them, [(a + b)[word] = a[word] + b[word]]. *)
Lemma get_add (a b : Counter.t) (word : string) :
  well_formed a -> well_formed b ->
  Counter.get (Counter.add a b) word = Counter.get a word + Counter.get b word.
Proof.
  intros Ha Hb. unfold Counter.add.
  rewrite add_second_loop by apply Hb. rewrite add_first_loop by apply Ha.
  pose proof (get_nonneg a word Ha) as Hna.
  pose proof (get_nonneg b word Hb) as Hnb.
  destruct (Counter.mem a word) eqn:Ea; simpl.
  - pose proof (get_mem_positive a word (proj2 Ha) Ea) as Hpa.
    rewrite andb_false_r.
    destruct (0 <? Counter.get a word + Counter.get b word) eqn:E; [reflexivity|].
    apply Z.ltb_ge in E. lia.
  - rewrite (get_not_mem a word Ea).
    destruct (Counter.mem b word) eqn:Eb; simpl.
    + pose proof (get_mem_positive b word (proj2 Hb) Eb) as Hpb.
      destruct (0 <? Counter.get b word) eqn:E; [lia|]. apply Z.ltb_ge in E. lia.
    + rewrite (get_not_mem b word Eb). reflexivity.
Qed.


(** ** Every score lies between 0 and 1 *)

Lemma two_products_le_sum (M P Q : Z) :
  0 <= P -> 0 <= Q -> M * M <= P * Q -> 2 * M <= P + Q.
Proof.
  intros HP HQ H.
  destruct (Z_le_gt_dec (2 * M) (P + Q)) as [Hle|Hgt]; [exact Hle|].
  exfalso.
  assert (H1 : (P + Q) * (P + Q) < (2 * M) * (2 * M))
    by (apply Z.mul_lt_mono_nonneg; lia).
  assert (H2 : 0 <= (P - Q) * (P - Q)) by apply Z.square_nonneg.
  nia.
Qed.

Lemma cauchy_schwarz_step (N B A x y : Z) :
  0 <= B -> 0 <= A -> N * N <= B * A ->
  (N + x * y) * (N + x * y) <= (B + x * x) * (A + y * y).
Proof.
  intros HB HA H.
  assert (Hm : 2 * (N * (x * y)) <= B * (y * y) + A * (x * x)).
  { apply two_products_le_sum.
    - apply Z.mul_nonneg_nonneg; [exact HB | apply Z.square_nonneg].
    - apply Z.mul_nonneg_nonneg; [exact HA | apply Z.square_nonneg].
    - replace (N * (x * y) * (N * (x * y))) with ((N * N) * ((x * y) * (x * y))) by ring.
      replace (B * (y * y) * (A * (x * x))) with ((B * A) * ((x * y) * (x * y))) by ring.
      apply Z.mul_le_mono_nonneg_r; [apply Z.square_nonneg | exact H]. }
  replace ((N + x * y) * (N + x * y))
    with (N * N + 2 * (N * (x * y)) + (x * y) * (x * y)) by ring.
  replace ((B + x * x) * (A + y * y))
    with (B * A + (B * (y * y) + A * (x * x)) + (x * y) * (x * y)) by ring.
  lia.
Qed.

Lemma add_token_bounded (b a : Counter.t) (s : sums) (token : string) :
  0 <= Counter.get b token -> 0 <= Counter.get a token ->
  sums_bounded s -> sums_bounded (add_token b a s token).
Proof.
  intros Hb Ha (Hn & HB & HA & Hcs). unfold sums_bounded, add_token.
  cbn [numerator before_sum after_sum]. rewrite !Z.pow_2_r.
  split; [apply Z.add_nonneg_nonneg; [exact Hn | apply Z.mul_nonneg_nonneg; assumption]|].
  split; [pose proof (Z.square_nonneg (Counter.get b token)); lia|].
  split; [pose proof (Z.square_nonneg (Counter.get a token)); lia|].
  apply cauchy_schwarz_step; assumption.
Qed.

Lemma gap_sums_bounded (unique_tokens : list string) (b a : Counter.t) :
  well_formed b -> well_formed a -> sums_bounded (gap_sums unique_tokens b a).
Proof.
  intros Hb Ha. unfold gap_sums.
  assert (H0 : sums_bounded zero_sums) by (unfold sums_bounded; simpl; lia).
  revert H0. generalize zero_sums.
  induction unique_tokens as [|token l IH]; intros s Hs; simpl; [exact Hs|].
  apply IH, add_token_bounded; [apply get_nonneg, Hb | apply get_nonneg, Ha | exact Hs].
Qed.

Lemma score_bounds (s : sums) : sums_bounded s -> (0 <= score s <= 1)%R.
Proof.
  intros (Hn & HB & HA & Hcs).
  assert (Hprod : 0 <= before_sum s * after_sum s) by (apply Z.mul_nonneg_nonneg; assumption).
  destruct (Z.eq_dec (before_sum s * after_sum s) 0) as [Hz|Hnz].
  - assert (numerator s = 0) as H0 by nia.
    rewrite (score_numerator_zero s H0). lra.
  - rewrite score_regular by lia.
    set (d := sqrt (IZR (before_sum s * after_sum s))).
    assert (Hd : (0 < d)%R) by (apply sqrt_lt_R0, IZR_lt; lia).
    assert (Hle : (IZR (numerator s) <= d)%R).
    { rewrite <- (sqrt_square (IZR (numerator s))) by (apply IZR_le; exact Hn).
      apply sqrt_le_1_alt. rewrite <- mult_IZR. apply IZR_le. exact Hcs. }
    assert (Hn' : (0 <= IZR (numerator s))%R) by (apply IZR_le; exact Hn).
    split.
    + apply Rmult_le_pos; [exact Hn' | left; apply Rinv_0_lt_compat, Hd].
    + apply (Rmult_le_reg_r d); [exact Hd|].
      unfold Rdiv. rewrite Rmult_assoc, Rinv_l by lra. lra.
Qed.

Lemma accumulate_well_formed (token_sequence : list (list string)) (gap_index ck : Z)
    (st st' : Counter.t * Counter.t) (js : list Z) :
  for_each (accumulate token_sequence gap_index ck) js st = Ok st' ->
  well_formed (fst st) -> well_formed (snd st) ->
  well_formed (fst st') /\ well_formed (snd st').
Proof.
  revert st. induction js as [|j js IH]; intros st Hrun Hb Ha; simpl in Hrun.
  - injection Hrun as <-. split; assumption.
  - unfold accumulate at 1 in Hrun.
    destruct (getitem token_sequence (gap_index + j - ck)) as [gb|e]; [|discriminate].
    destruct (getitem token_sequence (gap_index + j)) as [ga|e]; [|discriminate].
    simpl in Hrun. apply IH in Hrun; [exact Hrun | apply well_formed_add ..].
Qed.

Lemma gap_step_bounded (k : Z) (token_sequence : list (list string))
    (unique_tokens : list string) (st st' : score_state) (gap_index : Z) :
  gap_step k token_sequence unique_tokens st gap_index = Ok st' ->
  well_formed (before_count st) -> well_formed (after_count st) ->
  Forall sums_bounded (sums_block st) ->
  well_formed (before_count st') /\ well_formed (after_count st') /\
  Forall sums_bounded (sums_block st').
Proof.
  unfold gap_step. intros Hrun Hb Ha Hall.
  destruct (for_each _ (range 0 _) _) as [counts|e] eqn:Hacc; [|discriminate].
  simpl in Hrun. injection Hrun as <-. simpl.
  destruct (accumulate_well_formed _ _ _ _ _ _ Hacc Hb Ha) as [Hb' Ha'].
  split; [exact Hb'|]. split; [exact Ha'|].
  apply Forall_app. split; [exact Hall|].
  constructor; [apply gap_sums_bounded; assumption | constructor].
Qed.

Lemma gap_steps_bounded (k : Z) (token_sequence : list (list string))
    (unique_tokens : list string) (gaps : list Z) (st st' : score_state) :
  for_each (gap_step k token_sequence unique_tokens) gaps st = Ok st' ->
  well_formed (before_count st) -> well_formed (after_count st) ->
  Forall sums_bounded (sums_block st) ->
  well_formed (before_count st') /\ well_formed (after_count st') /\
  Forall sums_bounded (sums_block st').
Proof.
  revert st. induction gaps as [|g gaps IH]; intros st Hrun Hb Ha Hall; simpl in Hrun.
  - injection Hrun as <-. auto.
  - destruct (gap_step k token_sequence unique_tokens st g) as [st1|e] eqn:Hstep;
      [|discriminate].
    simpl in Hrun.
    destruct (gap_step_bounded _ _ _ _ _ _ Hstep Hb Ha Hall) as (Hb1 & Ha1 & Hall1).
    apply (IH st1); assumption.
Qed.

(** Whatever [k], the groups and the vocabulary are, [block_score] returns
    one score per gap and every score lies in the interval from 0 to 1. *)
Theorem block_score_in_unit_interval (k : Z) (token_sequence : list (list string))
    (unique_tokens : list string) :
  exists scores,
    block_score k token_sequence unique_tokens = Ok scores /\
    List.length scores = (List.length token_sequence - 1)%nat /\
    Forall (fun x => (0 <= x <= 1)%R) scores.
Proof.
  destruct (block_sums_total k token_sequence unique_tokens) as (block & Hrun & Hlen & _).
  exists (map score block). unfold block_score. rewrite Hrun. simpl.
  split; [reflexivity|]. split; [rewrite length_map; exact Hlen|].
  unfold block_sums in Hrun.
  destruct (block_states k token_sequence unique_tokens) as [st|e] eqn:Hst; [|discriminate].
  simpl in Hrun. injection Hrun as <-.
  destruct (gap_steps_bounded _ _ _ _ _ _ Hst) as (_ & _ & Hall);
    [apply well_formed_empty | apply well_formed_empty | constructor |].
  apply Forall_map. eapply Forall_impl; [|exact Hall].
  intros s Hs. apply score_bounds, Hs.
Qed.


(** ** What the accumulators hold at a gap *)

Lemma getitem_nth {A : Type} (l : list A) (i : Z) (d : A) :
  0 <= i < len l -> getitem l i = Ok (nth (Z.to_nat i) l d).
Proof.
  intros H. unfold getitem.
  destruct (i <? 0) eqn:Hneg; [apply Z.ltb_lt in Hneg; lia|]. rewrite Hneg.
  rewrite (nth_error_nth' l d); [reflexivity|]. unfold len in H. lia.
Qed.

Lemma skipn_nth {A : Type} (l : list A) (lo : nat) (d : A) :
  (lo < List.length l)%nat -> skipn lo l = nth lo l d :: skipn (S lo) l.
Proof.
  revert lo. induction l as [|x l IH]; intros lo H; simpl in H; [lia|].
  destruct lo as [|lo]; [reflexivity|]. simpl. apply IH. lia.
Qed.

Lemma firstn_skipn_nth {A : Type} (l : list A) (lo c : nat) (d : A) :
  (lo + c <= List.length l)%nat ->
  firstn c (skipn lo l) = map (fun i => nth (lo + i) l d) (seq 0 c).
Proof.
  revert lo. induction c as [|c IH]; intros lo H; [reflexivity|].
  rewrite (skipn_nth l lo d) by lia. cbn [firstn seq map]. rewrite Nat.add_0_r. f_equal.
  rewrite IH by lia. rewrite <- seq_shift, map_map.
  apply map_ext. intros i. f_equal. lia.
Qed.

(** Reading [c] consecutive items from index [lo] gives the slice
    [l[lo : lo + c]]. *)
Lemma slice_reads {A : Type} (l : list A) (lo c : Z) (d : A) :
  0 <= lo -> 0 <= c -> lo + c <= len l ->
  map (fun j => nth (Z.to_nat (lo + j)) l d) (range 0 c) = slice l lo (lo + c).
Proof.
  intros Hlo Hc Hhi. unfold slice.
  destruct (lo <? 0) eqn:E1; [apply Z.ltb_lt in E1; lia|].
  destruct (lo + c <? 0) eqn:E2; [apply Z.ltb_lt in E2; lia|].
  rewrite !Z.min_l by lia.
  rewrite (firstn_skipn_nth l (Z.to_nat lo) (Z.to_nat (lo + c - lo)) d)
    by (unfold len in Hhi; lia).
  unfold range. rewrite map_map. replace (lo + c - lo) with (c - 0) by lia.
  apply map_ext. intros i. f_equal. lia.
Qed.

Lemma accumulate_reads (token_sequence : list (list string)) (gap_index ck : Z)
    (js : list Z) (st : Counter.t * Counter.t) :
  Forall (fun j => 0 <= gap_index + j - ck < len token_sequence /\
                   0 <= gap_index + j < len token_sequence) js ->
  for_each (accumulate token_sequence gap_index ck) js st =
  Ok (fold_left (fun c group => Counter.add c (Counter.of_list group))
        (map (fun j => nth (Z.to_nat (gap_index - ck + j)) token_sequence []) js) (fst st),
      fold_left (fun c group => Counter.add c (Counter.of_list group))
        (map (fun j => nth (Z.to_nat (gap_index + j)) token_sequence []) js) (snd st)).
Proof.
  intros Hjs. revert st. induction Hjs as [|j js [Hb Ha] _ IH]; intros [b a]; simpl.
  - reflexivity.
  - unfold accumulate at 1.
    rewrite (getitem_nth token_sequence (gap_index + j - ck) []) by exact Hb.
    rewrite (getitem_nth token_sequence (gap_index + j) []) by exact Ha.
    simpl. rewrite IH. simpl.
    replace (gap_index - ck + j) with (gap_index + j - ck) by lia. reflexivity.
Qed.

Lemma fold_add_groups (block : list (list string)) (c : Counter.t) :
  well_formed c ->
  well_formed (fold_left (fun c group => Counter.add c (Counter.of_list group)) block c) /\
  forall word,
    Counter.get (fold_left (fun c group => Counter.add c (Counter.of_list group)) block c)
      word =
    Counter.get c word + occurrences (List.concat block) word.
Proof.
  revert c. induction block as [|group block IH]; intros c Hc; simpl.
  - split; [exact Hc|]. intros word. rewrite occurrences_nil. lia.
  - destruct (IH (Counter.add c (Counter.of_list group)) (well_formed_add _ _))
      as [Hwf Hget].
    split; [exact Hwf|]. intros word.
    rewrite Hget, get_add, get_of_list, occurrences_app
      by (exact Hc || apply well_formed_of_list).
    lia.
Qed.

(** The counts of a window are the occurrences in its groups. *)
Lemma get_window_count (block : list (list string)) (word : string) :
  Counter.get (window_count block) word = occurrences (List.concat block) word.
Proof.
  unfold window_count.
  destruct (fold_add_groups block Counter.empty well_formed_empty) as [_ H].
  rewrite H. reflexivity.
Qed.

(** One pass of the gap loop adds the two windows of the gap to the
    counts that the previous gaps left. *)
Lemma gap_step_counts (k : Z) (token_sequence : list (list string))
    (unique_tokens : list string) (st : score_state) (gap_index : Z) :
  0 <= k ->
  1 <= gap_index < len token_sequence ->
  well_formed (before_count st) -> well_formed (after_count st) ->
  exists st',
    gap_step k token_sequence unique_tokens st gap_index = Ok st' /\
    well_formed (before_count st') /\ well_formed (after_count st') /\
    sums_block st' =
      (sums_block st ++ [gap_sums unique_tokens (before_count st') (after_count st')])%list /\
    forall word,
      Counter.get (before_count st') word =
        Counter.get (before_count st) word
        + occurrences (List.concat (before_block k token_sequence gap_index)) word /\
      Counter.get (after_count st') word =
        Counter.get (after_count st) word
        + occurrences (List.concat (after_block k token_sequence gap_index)) word.
Proof.
  intros Hk Hg Hb Ha. unfold gap_step.
  set (ck := current_k k (len token_sequence) gap_index).
  pose proof (current_k_bounds k (len token_sequence) gap_index) as Hck. fold ck in Hck.
  assert (Hck0 : 0 <= ck) by (unfold ck, current_k; lia).
  rewrite accumulate_reads.
  2:{ apply Forall_forall. intros j Hj. apply range_In in Hj.
      pose proof (window_indices_in_range k (len token_sequence) gap_index j Hg Hj).
      fold ck in H. lia. }
  cbn [bind fst snd]. eexists. split; [reflexivity|].
  cbn [before_count after_count sums_block].
  rewrite (slice_reads token_sequence (gap_index - ck) ck []) by lia.
  rewrite (slice_reads token_sequence gap_index ck []) by lia.
  replace (gap_index - ck + ck) with gap_index by lia.
  destruct (fold_add_groups (slice token_sequence (gap_index - ck) gap_index)
              (before_count st) Hb) as [Hwb Hgb].
  destruct (fold_add_groups (slice token_sequence gap_index (gap_index + ck))
              (after_count st) Ha) as [Hwa Hga].
  split; [exact Hwb|]. split; [exact Hwa|]. split; [reflexivity|].
  intros word. unfold before_block, after_block. fold ck.
  rewrite Hgb, Hga. split; reflexivity.
Qed.

Lemma gap_steps_counts (k : Z) (token_sequence : list (list string))
    (unique_tokens : list string) (gaps : list Z) (st : score_state) :
  0 <= k ->
  Forall (fun g => 1 <= g < len token_sequence) gaps ->
  well_formed (before_count st) -> well_formed (after_count st) ->
  exists st',
    for_each (gap_step k token_sequence unique_tokens) gaps st = Ok st' /\
    well_formed (before_count st') /\ well_formed (after_count st') /\
    List.length (sums_block st') = (List.length (sums_block st) + List.length gaps)%nat /\
    forall word,
      Counter.get (before_count st') word =
        Counter.get (before_count st) word
        + occurrences
            (List.concat (map (fun g => List.concat (before_block k token_sequence g)) gaps))
            word /\
      Counter.get (after_count st') word =
        Counter.get (after_count st) word
        + occurrences
            (List.concat (map (fun g => List.concat (after_block k token_sequence g)) gaps))
            word.
Proof.
  intros Hk Hgaps. revert st.
  induction Hgaps as [|g gaps Hg _ IH]; intros st Hb Ha; simpl.
  - exists st. split; [reflexivity|]. split; [exact Hb|]. split; [exact Ha|].
    split; [lia|]. intros word. rewrite occurrences_nil. lia.
  - destruct (gap_step_counts k token_sequence unique_tokens st g Hk Hg Hb Ha)
      as (st1 & -> & Hb1 & Ha1 & Hs1 & Hc1).
    cbn [bind].
    destruct (IH st1 Hb1 Ha1) as (st2 & Hrun & Hb2 & Ha2 & Hlen & Hc2).
    exists st2. split; [exact Hrun|]. split; [exact Hb2|]. split; [exact Ha2|].
    split; [rewrite Hlen, Hs1, length_app; simpl; lia|].
    intros word. destruct (Hc1 word) as [H1 H1']. destruct (Hc2 word) as [H2 H2'].
    rewrite !occurrences_app. lia.
Qed.

(** The sums of a gap depend on the two Counters through their counts only. *)
Lemma gap_sums_ext (unique_tokens : list string) (b a b' a' : Counter.t) :
  (forall word, Counter.get b word = Counter.get b' word) ->
  (forall word, Counter.get a word = Counter.get a' word) ->
  gap_sums unique_tokens b a = gap_sums unique_tokens b' a'.
Proof.
  intros Hb Ha. unfold gap_sums. generalize zero_sums.
  induction unique_tokens as [|token l IH]; intros s; simpl; [reflexivity|].
  rewrite IH. f_equal. unfold add_token. rewrite Hb, Ha. reflexivity.
Qed.

Lemma range_snoc (lo hi : Z) : lo <= hi -> range lo (hi + 1) = (range lo hi ++ [hi])%list.
Proof.
  intros H. rewrite (range_split lo hi (hi + 1)) by lia. f_equal.
  unfold range. replace (Z.to_nat (hi + 1 - hi)) with 1%nat by lia.
  simpl. f_equal. lia.
Qed.

(** For [k >= 0], the entry of gap [m] in the block is computed from all
    the windows of gaps 1 to [m]: its counts before the gap are those of the
    before-windows of gaps 1, ..., [m] taken together, and likewise after. *)
Lemma block_sums_at_gap (k : Z) (token_sequence : list (list string))
    (unique_tokens : list string) (m : nat) :
  0 <= k -> (1 <= m < List.length token_sequence)%nat ->
  exists block,
    block_sums k token_sequence unique_tokens = Ok block /\
    nth_error block (m - 1) =
    Some (gap_sums unique_tokens
            (Counter.of_list (windows_up_to (before_block k token_sequence) m))
            (Counter.of_list (windows_up_to (after_block k token_sequence) m))).
Proof.
  intros Hk Hm.
  destruct (block_sums_total k token_sequence unique_tokens)
    as (block & Hrun & Hlen & Hprefix).
  exists block. split; [exact Hrun|].
  destruct (Hprefix m (proj2 Hm)) as (st & Hst & Hfirst).
  replace (1 + Z.of_nat m) with (Z.of_nat m + 1) in Hst by lia.
  rewrite range_snoc, for_each_app in Hst by lia.
  destruct (gap_steps_counts k token_sequence unique_tokens (range 1 (Z.of_nat m))
              initial_state Hk)
    as (st0 & Hrun0 & Hb0 & Ha0 & Hlen0 & Hc0);
    [apply gaps_in_range; unfold len; lia | apply well_formed_empty ..|].
  rewrite Hrun0 in Hst. cbn [bind for_each] in Hst.
  destruct (gap_step_counts k token_sequence unique_tokens st0 (Z.of_nat m) Hk)
    as (st1 & Hstep & Hb1 & Ha1 & Hs1 & Hc1);
    [unfold len; lia | exact Hb0 | exact Ha0 |].
  rewrite Hstep in Hst. cbn [bind] in Hst. injection Hst as <-.
  assert (Hnth : nth_error (sums_block st1) (m - 1) =
                 Some (gap_sums unique_tokens (before_count st1) (after_count st1))).
  { rewrite Hs1, nth_error_app2 by (rewrite Hlen0, range_length; simpl; lia).
    replace (m - 1 - List.length (sums_block st0))%nat with 0%nat
      by (rewrite Hlen0, range_length; simpl; lia).
    reflexivity. }
  rewrite Hfirst, nth_error_firstn in Hnth.
  destruct (Nat.ltb_spec (m - 1) m) as [_|Hbad]; [|lia].
  rewrite Hnth. f_equal. apply gap_sums_ext; intros word.
  - rewrite get_of_list. destruct (Hc1 word) as [-> _]. destruct (Hc0 word) as [-> _].
    unfold windows_up_to. replace (1 + Z.of_nat m) with (Z.of_nat m + 1) by lia.
    rewrite range_snoc, map_app, concat_app, occurrences_app by lia.
    simpl. rewrite app_nil_r. reflexivity.
  - rewrite get_of_list. destruct (Hc1 word) as [_ ->]. destruct (Hc0 word) as [_ ->].
    unfold windows_up_to. replace (1 + Z.of_nat m) with (Z.of_nat m + 1) by lia.
    rewrite range_snoc, map_app, concat_app, occurrences_app by lia.
    simpl. rewrite app_nil_r. reflexivity.
Qed.

(** For [k >= 0], the score of gap [m] is the cosine score between the words
    of all before-windows of gaps 1 to [m] and the words of all after-windows
    of gaps 1 to [m]: the windows of the earlier gaps stay in the counts. *)
Theorem score_at_gap_counts_all_earlier_windows (k : Z)
    (token_sequence : list (list string)) (unique_tokens : list string) (m : nat) :
  0 <= k -> (1 <= m < List.length token_sequence)%nat ->
  exists scores,
    block_score k token_sequence unique_tokens = Ok scores /\
    nth_error scores (m - 1) =
    Some (score
            (gap_sums unique_tokens
               (Counter.of_list (windows_up_to (before_block k token_sequence) m))
               (Counter.of_list (windows_up_to (after_block k token_sequence) m)))).
Proof.
  intros Hk Hm.
  destruct (block_sums_at_gap k token_sequence unique_tokens m Hk Hm)
    as (block & Hrun & Hnth).
  exists (map score block). unfold block_score. rewrite Hrun. cbn [bind].
  split; [reflexivity|]. apply map_nth_error, Hnth.
Qed.

Lemma score_at_gap_counts_all_earlier_windows_witness :
  exists scores,
    block_score 1 aba ["a"; "b"] = Ok scores /\
    nth_error scores 1 =
    Some (score (gap_sums ["a"; "b"] (Counter.of_list ["a"; "b"])
                   (Counter.of_list ["b"; "a"]))).
Proof.
  destruct (score_at_gap_counts_all_earlier_windows 1 aba ["a"; "b"] 2)
    as (scores & Hrun & Hnth); [lia | simpl; lia|].
  exists scores. split; [exact Hrun | exact Hnth].
Defined.

(** For [k >= 0] and at least two groups, the first score is the score of
    the first gap's own two windows. *)
Theorem first_score_from_own_windows (k : Z) (token_sequence : list (list string))
    (unique_tokens : list string) :
  0 <= k -> (2 <= List.length token_sequence)%nat ->
  exists scores,
    block_score k token_sequence unique_tokens = Ok scores /\
    nth_error scores 0 = Some (score (windowed_sums k token_sequence unique_tokens 1)).
Proof.
  intros Hk Hn.
  destruct (block_sums_at_gap k token_sequence unique_tokens 1 Hk)
    as (block & Hrun & Hnth); [lia|].
  exists (map score block). unfold block_score. rewrite Hrun. cbn [bind].
  split; [reflexivity|].
  change (1 - 1)%nat with 0%nat in Hnth. rewrite (map_nth_error score _ _ Hnth).
  do 2 f_equal. unfold windowed_sums.
  apply gap_sums_ext; intros word;
    rewrite get_of_list, get_window_count; unfold windows_up_to;
    replace (range 1 (1 + Z.of_nat 1)) with [1] by reflexivity;
    simpl; rewrite app_nil_r; reflexivity.
Qed.

Lemma first_score_from_own_windows_witness :
  exists scores,
    block_score 1 scenario_groups scenario_vocabulary = Ok scores /\
    nth_error scores 0 =
    Some (score (windowed_sums 1 scenario_groups scenario_vocabulary 1)).
Proof.
  apply (first_score_from_own_windows 1 scenario_groups scenario_vocabulary);
    [lia | simpl; lia].
Defined.


(** ** The scores do not depend on unspecified orders *)

Lemma add_token_comm (b a : Counter.t) (s : sums) (x y : string) :
  add_token b a (add_token b a s x) y = add_token b a (add_token b a s y) x.
Proof. unfold add_token. simpl. f_equal; ring. Qed.

Lemma gap_sums_permutation (v v' : list string) (b a : Counter.t) :
  Permutation v v' -> gap_sums v b a = gap_sums v' b a.
Proof.
  intros H. unfold gap_sums. generalize zero_sums.
  induction H as [|x l l' _ IH|x y l|l l' l'' _ IH1 _ IH2]; intros s; simpl.
  - reflexivity.
  - apply IH.
  - rewrite add_token_comm. reflexivity.
  - rewrite IH1. apply IH2.
Qed.

(** The vocabulary comes from a [set], whose iteration order is not
    specified: the scores are the same for every order of the vocabulary. *)
Theorem block_score_vocabulary_order (k : Z) (token_sequence : list (list string))
    (unique_tokens unique_tokens' : list string) :
  Permutation unique_tokens unique_tokens' ->
  block_score k token_sequence unique_tokens =
  block_score k token_sequence unique_tokens'.
Proof.
  intros H. unfold block_score, block_sums, block_states.
  rewrite (for_each_ext (gap_step k token_sequence unique_tokens)
             (gap_step k token_sequence unique_tokens')); [reflexivity|].
  intros st g. unfold gap_step.
  destruct (for_each _ (range 0 _) _) as [counts|e]; [|reflexivity].
  simpl. rewrite (gap_sums_permutation _ _ _ _ H). reflexivity.
Qed.

Lemma block_score_vocabulary_order_witness :
  block_score 1 aba ["a"; "b"] = block_score 1 aba ["b"; "a"].
Proof.
  apply block_score_vocabulary_order. apply perm_swap.
Defined.

Lemma for_each_related {A S T : Type} (R : S -> T -> Prop)
    (f : S -> A -> result S) (g : T -> A -> result T) (l : list A) (st : S) (st' : T) :
  (forall s s' x, R s s' -> result_rel R (f s x) (g s' x)) ->
  R st st' -> result_rel R (for_each f l st) (for_each g l st').
Proof.
  intros Hstep. revert st st'. induction l as [|x l IH]; intros st st' HR; simpl.
  - exact HR.
  - pose proof (Hstep st st' x HR) as H. unfold result_rel in H.
    destruct (f st x) as [s1|e], (g st' x) as [s2|e']; simpl; try contradiction.
    + apply IH, H.
    + exact H.
Qed.

Lemma getitem_related {A : Type} (R : A -> A -> Prop) (l l' : list A) (i : Z) :
  Forall2 R l l' -> result_rel R (getitem l i) (getitem l' i).
Proof.
  intros H. unfold getitem, len. rewrite <- (Forall2_length H).
  destruct ((if i <? 0 then i + Z.of_nat (List.length l) else i) <? 0); [reflexivity|].
  generalize (Z.to_nat (if i <? 0 then i + Z.of_nat (List.length l) else i)).
  induction H as [|x y l l' Hxy _ IH]; intros n; destruct n as [|n]; simpl;
    try reflexivity; [exact Hxy | apply IH].
Qed.

Lemma gap_sums_on_vocabulary (v : list string) (b a b' a' : Counter.t) :
  same_counts v b b' -> same_counts v a a' -> gap_sums v b a = gap_sums v b' a'.
Proof.
  unfold same_counts, gap_sums. generalize zero_sums.
  induction v as [|token l IH]; intros s Hb Ha; simpl; [reflexivity|].
  rewrite IH by (intros word Hw; (apply Hb || apply Ha); right; exact Hw).
  f_equal. unfold add_token. rewrite (Hb token), (Ha token) by (left; reflexivity).
  reflexivity.
Qed.

Lemma counts_related_add (v : list string) (c c' : Counter.t)
    (group group' : list string) :
  counts_related v c c' -> same_occurrences v group group' ->
  counts_related v (Counter.add c (Counter.of_list group))
    (Counter.add c' (Counter.of_list group')).
Proof.
  intros (Hc & Hc' & Hsame) Hocc.
  split; [apply well_formed_add|]. split; [apply well_formed_add|].
  intros word Hw. rewrite !get_add by (assumption || apply well_formed_of_list).
  rewrite (Hsame word Hw), !get_of_list, (Hocc word Hw). reflexivity.
Qed.

Lemma accumulate_related (v : list string)
    (token_sequence token_sequence' : list (list string))
    (gap_index ck : Z) (st st' : Counter.t * Counter.t) (j : Z) :
  Forall2 (same_occurrences v) token_sequence token_sequence' ->
  accumulators_related v st st' ->
  result_rel (accumulators_related v)
    (accumulate token_sequence gap_index ck st j)
    (accumulate token_sequence' gap_index ck st' j).
Proof.
  intros Hseq [Hb Ha]. unfold accumulate.
  pose proof (getitem_related _ _ _ (gap_index + j - ck) Hseq) as H1.
  pose proof (getitem_related _ _ _ (gap_index + j) Hseq) as H2.
  unfold result_rel in H1, H2.
  destruct (getitem token_sequence (gap_index + j - ck)) as [g1|e1],
           (getitem token_sequence' (gap_index + j - ck)) as [g1'|e1'];
    simpl; try contradiction; [|exact H1].
  destruct (getitem token_sequence (gap_index + j)) as [g2|e2],
           (getitem token_sequence' (gap_index + j)) as [g2'|e2'];
    simpl; try contradiction; [|exact H2].
  split; simpl; apply counts_related_add; assumption.
Qed.

Lemma gap_step_related (k : Z) (token_sequence token_sequence' : list (list string))
    (unique_tokens : list string) (st st' : score_state) (gap_index : Z) :
  Forall2 (same_occurrences unique_tokens) token_sequence token_sequence' ->
  states_related unique_tokens st st' ->
  result_rel (states_related unique_tokens)
    (gap_step k token_sequence unique_tokens st gap_index)
    (gap_step k token_sequence' unique_tokens st' gap_index).
Proof.
  intros Hseq (Hb & Ha & Hs). unfold gap_step.
  assert (Hlen : len token_sequence' = len token_sequence)
    by (unfold len; rewrite (Forall2_length Hseq); reflexivity).
  rewrite Hlen.
  set (ck := current_k k (len token_sequence) gap_index).
  assert (H : result_rel (accumulators_related unique_tokens)
                (for_each (accumulate token_sequence gap_index ck) (range 0 ck)
                   (before_count st, after_count st))
                (for_each (accumulate token_sequence' gap_index ck) (range 0 ck)
                   (before_count st', after_count st'))).
  { apply for_each_related; [|split; assumption].
    intros s s' x Hss. apply accumulate_related; assumption. }
  unfold result_rel in H.
  destruct (for_each (accumulate token_sequence gap_index ck) _ _) as [c|e],
           (for_each (accumulate token_sequence' gap_index ck) _ _) as [c'|e'];
    simpl; try contradiction; [|exact H].
  destruct H as [Hb' Ha'].
  split; [exact Hb'|]. split; [exact Ha'|]. simpl. rewrite Hs. do 2 f_equal.
  apply gap_sums_on_vocabulary; [apply Hb' | apply Ha'].
Qed.

Lemma block_sums_same_occurrences (k : Z)
    (token_sequence token_sequence' : list (list string)) (unique_tokens : list string) :
  Forall2 (same_occurrences unique_tokens) token_sequence token_sequence' ->
  block_sums k token_sequence unique_tokens =
  block_sums k token_sequence' unique_tokens.
Proof.
  intros Hseq. unfold block_sums, block_states.
  assert (Hlen : len token_sequence' = len token_sequence)
    by (unfold len; rewrite (Forall2_length Hseq); reflexivity).
  rewrite Hlen.
  assert (H : result_rel (states_related unique_tokens)
                (for_each (gap_step k token_sequence unique_tokens)
                   (range 1 (len token_sequence)) initial_state)
                (for_each (gap_step k token_sequence' unique_tokens)
                   (range 1 (len token_sequence)) initial_state)).
  { apply for_each_related.
    - intros s s' x Hss. apply gap_step_related; assumption.
    - repeat split; try apply well_formed_empty. }
  unfold result_rel in H.
  destruct (for_each (gap_step k token_sequence unique_tokens) _ _) as [st|e],
           (for_each (gap_step k token_sequence' unique_tokens) _ _) as [st'|e'];
    simpl; try contradiction.
  - destruct H as (_ & _ & ->). reflexivity.
  - rewrite H. reflexivity.
Qed.

(** The scores depend on the groups only through the number of times each
    vocabulary word occurs in each group. *)
Theorem block_score_vocabulary_counts (k : Z)
    (token_sequence token_sequence' : list (list string)) (unique_tokens : list string) :
  Forall2 (same_occurrences unique_tokens) token_sequence token_sequence' ->
  block_score k token_sequence unique_tokens =
  block_score k token_sequence' unique_tokens.
Proof.
  intros Hseq. unfold block_score.
  rewrite (block_sums_same_occurrences k _ _ _ Hseq). reflexivity.
Qed.

Lemma block_score_vocabulary_counts_witness :
  block_score 1 [["a"; "x"]; ["b"]; ["y"; "a"]] ["a"; "b"] = block_score 1 aba ["a"; "b"].
Proof.
  apply block_score_vocabulary_counts. unfold aba.
  repeat constructor; intros word [<-|[<-|[]]]; reflexivity.
Defined.

(** A group lists the keys of a dictionary, whose order is not specified:
    the scores are the same when the words of any group are listed in
    another order. *)
Theorem block_score_word_order (k : Z) (token_sequence token_sequence' : list (list string))
    (unique_tokens : list string) :
  Forall2 (@Permutation string) token_sequence token_sequence' ->
  block_score k token_sequence unique_tokens =
  block_score k token_sequence' unique_tokens.
Proof.
  intros Hseq. unfold block_score.
  rewrite (block_sums_same_occurrences k token_sequence token_sequence' unique_tokens);
    [reflexivity|].
  eapply Forall2_impl; [|exact Hseq].
  intros group group' Hperm word _. unfold occurrences.
  rewrite (Permutation_count_occ string_dec group group') in Hperm.
  rewrite Hperm. reflexivity.
Qed.

Lemma block_score_word_order_witness :
  block_score 1 scenario_groups scenario_vocabulary =
  block_score 1 [["sat"; "cat"]; ["mat"]; ["ran"; "dog"; "fast"]] scenario_vocabulary.
Proof.
  apply block_score_word_order. unfold scenario_groups.
  constructor; [apply perm_swap|].
  constructor; [apply Permutation_refl|].
  constructor; [apply perm_swap | constructor].
Defined.

Lemma in_vocabulary_In (unique_tokens : list string) (word : string) :
  in_vocabulary unique_tokens word = true <-> In word unique_tokens.
Proof.
  unfold in_vocabulary. rewrite existsb_exists. split.
  - intros (x & Hx & Heq). apply String.eqb_eq in Heq. subst. exact Hx.
  - intros H. exists word. split; [exact H | apply String.eqb_refl].
Qed.

Lemma occurrences_filter (test : string -> bool) (group : list string) (word : string) :
  test word = true -> occurrences (filter test group) word = occurrences group word.
Proof.
  intros Hw. induction group as [|x group IH]; [reflexivity|]. simpl.
  destruct (test x) eqn:Hx.
  - rewrite !occurrences_cons, IH. reflexivity.
  - rewrite occurrences_cons, IH.
    destruct (String.eqb_spec word x) as [->|_]; [congruence | reflexivity].
Qed.

(** Words that are not in the vocabulary never influence a score: removing
    them from every group leaves the result unchanged. *)
Theorem block_score_ignores_other_words (k : Z) (token_sequence : list (list string))
    (unique_tokens : list string) :
  block_score k (map (filter (in_vocabulary unique_tokens)) token_sequence) unique_tokens =
  block_score k token_sequence unique_tokens.
Proof.
  unfold block_score.
  rewrite (block_sums_same_occurrences k
             (map (filter (in_vocabulary unique_tokens)) token_sequence)
             token_sequence unique_tokens); [reflexivity|].
  induction token_sequence as [|group l IH]; simpl; constructor; [|exact IH].
  intros word Hw. apply occurrences_filter, in_vocabulary_In, Hw.
Qed.

(** ** The tokenizer: what the groups hold *)

Lemma mod_zero_at_size (w i : Z) :
  w <> 0 -> 0 < i <= Z.abs w -> (i mod w =? 0) = (i =? Z.abs w).
Proof.
  intros Hw Hi. apply eq_true_iff_eq. rewrite !Z.eqb_eq, Z.mod_divide by exact Hw.
  split.
  - intros Hdiv. apply Z.divide_abs_l in Hdiv.
    apply Z.divide_pos_le in Hdiv; lia.
  - intros ->. apply Z.divide_abs_r. apply Z.divide_refl.
Qed.

Lemma of_list_snoc (l : list string) (x : string) :
  Counter.of_list (l ++ [x]) = Counter.incr (Counter.of_list l) x.
Proof. unfold Counter.of_list. rewrite fold_left_app. reflexivity. Qed.

Lemma chunk_snoc (n : nat) (toks : list string) (x : string) (i : nat) :
  (i * n + n <= List.length toks)%nat -> chunk n (toks ++ [x]) i = chunk n toks i.
Proof.
  intros H. unfold chunk. rewrite skipn_app, firstn_app, length_skipn.
  replace (n - (List.length toks - i * n))%nat with 0%nat by lia.
  rewrite firstn_O, app_nil_r. reflexivity.
Qed.

(** State of the grouping loop once the tokens [done] are consumed: [q]
    groups are closed and the [r] tokens after them are being counted. *)
Lemma group_loop_invariant (w : Z) (done : list string) :
  w <> 0 ->
  exists (st : group_state) (q r : nat),
    for_each (group_step w) done
      {| count := Counter.empty; index := 0; token_sequences := [] |} = Ok st /\
    List.length done = (q * Z.to_nat (Z.abs w) + r)%nat /\
    (r < Z.to_nat (Z.abs w))%nat /\
    token_sequences st =
      map (fun i => Counter.of_list (chunk (Z.to_nat (Z.abs w)) done i)) (seq 0 q) /\
    count st = Counter.of_list (skipn (q * Z.to_nat (Z.abs w)) done) /\
    index st = Z.of_nat r.
Proof.
  intros Hw. set (n := Z.to_nat (Z.abs w)).
  assert (Hn : (0 < n)%nat) by (unfold n; lia).
  induction done as [|x done IH] using rev_ind.
  - exists {| count := Counter.empty; index := 0; token_sequences := [] |}, 0%nat, 0%nat.
    simpl. repeat split; try reflexivity. exact Hn.
  - destruct IH as (st & q & r & Hrun & Hlen & Hr & Hseqs & Hcount & Hindex).
    rewrite for_each_app, Hrun. cbn [bind for_each].
    unfold group_step, py_mod.
    destruct (Z.eqb_spec w 0) as [H0|_]; [contradiction|]. cbn [bind].
    rewrite mod_zero_at_size by (unfold n in *; lia).
    assert (Hold : forall i, In i (seq 0 q) ->
              Counter.of_list (chunk n (done ++ [x]) i) = Counter.of_list (chunk n done i)).
    { intros i Hi. apply in_seq in Hi. rewrite chunk_snoc; [reflexivity|]. nia. }
    assert (Hcur : Counter.incr (count st) x =
                   Counter.of_list (skipn (q * n) (done ++ [x]))).
    { rewrite Hcount, skipn_app, <- of_list_snoc.
      replace (q * n - List.length done)%nat with 0%nat by lia. reflexivity. }
    destruct (Z.eqb_spec (index st + 1) (Z.abs w)) as [Hfull|Hpart].
    + eexists. exists (S q), 0%nat. split; [reflexivity|]. cbn [count index token_sequences].
      assert (Hr1 : S r = n) by (unfold n; lia).
      split; [rewrite length_app; simpl; lia|]. split; [exact Hn|]. split; [|split].
      * rewrite seq_S, map_app, Hseqs. simpl. f_equal.
        -- apply map_ext_in. intros i Hi. symmetry. apply Hold, Hi.
        -- rewrite Hcur. unfold chunk. rewrite firstn_all2; [reflexivity|].
           rewrite length_skipn, length_app. simpl. lia.
      * rewrite skipn_all2; [reflexivity|]. rewrite length_app. simpl. lia.
      * reflexivity.
    + eexists. exists q, (S r). split; [reflexivity|]. cbn [count index token_sequences].
      split; [rewrite length_app; simpl; lia|]. split; [unfold n in *; lia|].
      split; [|split].
      * rewrite Hseqs. apply map_ext_in. intros i Hi. symmetry. apply Hold, Hi.
      * exact Hcur.
      * lia.
Qed.

(** With a non-zero [w], the loop closes one Counter per full run of [|w|]
    tokens: Counter number [i] counts the tokens at positions [i * |w|] to
    [i * |w| + |w| - 1], and the tokens left after the last full run are in
    no Counter. *)
Lemma group_tokens_chunks (w : Z) (toks : list string) :
  w <> 0 ->
  group_tokens w toks =
  Ok (map (fun i => Counter.of_list (chunk (Z.to_nat (Z.abs w)) toks i))
        (seq 0 (List.length toks / Z.to_nat (Z.abs w)))).
Proof.
  intros Hw. unfold group_tokens.
  destruct (group_loop_invariant w toks Hw)
    as (st & q & r & -> & Hlen & Hr & Hseqs & _ & _).
  cbn [bind]. rewrite Hseqs. do 3 f_equal.
  apply (Nat.div_unique _ _ q r); lia.
Qed.

Lemma In_keys_of_list (l : list string) (word : string) :
  In word (Counter.keys (Counter.of_list l)) <-> In word l.
Proof.
  rewrite <- mem_keys.
  pose proof (well_formed_of_list l) as Hwf.
  rewrite (count_occ_In string_dec l word).
  pose proof (get_of_list l word) as Hget. unfold occurrences in Hget.
  split.
  - intros Hmem. pose proof (get_mem_positive _ _ (proj2 Hwf) Hmem). lia.
  - intros Hpos. destruct (Counter.mem (Counter.of_list l) word) eqn:E; [reflexivity|].
    rewrite (get_not_mem _ _ E) in Hget. lia.
Qed.




(** The groups returned for a non-zero [w], one by one. *)
Lemma tokenize_string_groups (lemmatize : string -> string) (stop_words : list string)
    (input_string : string) (w : Z) :
  w <> 0 ->
  exists vocabulary breaks,
    tokenize_string lemmatize stop_words input_string w =
    Ok (map (fun i =>
               map (fun word => lemmatize (lemmatize word))
                 (filter (fun word => negb (is_stop_word stop_words word))
                    (Counter.keys
                       (Counter.of_list
                          (chunk (Z.to_nat (Z.abs w)) (raw_tokens input_string) i)))))
          (seq 0 (List.length (raw_tokens input_string) / Z.to_nat (Z.abs w))),
        vocabulary, breaks).
Proof.
  intros Hw.
  destruct (returned_groups_shape lemmatize stop_words input_string w _
              (group_tokens_chunks w (raw_tokens input_string) Hw))
    as (vocabulary & breaks & Hrun).
  exists vocabulary, breaks. rewrite Hrun, map_map. reflexivity.
Qed.

Lemma group_words (lemmatize : string -> string) (stop_words : list string)
    (words : list string) (word : string) :
  In word
    (map (fun word => lemmatize (lemmatize word))
       (filter (fun word => negb (is_stop_word stop_words word))
          (Counter.keys (Counter.of_list words)))) <->
  exists raw, In raw words /\ ~ In raw stop_words /\ word = lemmatize (lemmatize raw).
Proof.
  rewrite in_map_iff. split.
  - intros (raw & <- & Hraw). apply filter_In in Hraw. destruct Hraw as [Hkey Hstop].
    exists raw. split; [apply In_keys_of_list, Hkey|]. split; [|reflexivity].
    rewrite <- is_stop_word_In. apply negb_true_iff in Hstop. congruence.
  - intros (raw & Hraw & Hstop & ->). exists raw. split; [reflexivity|].
    apply filter_In. split; [apply In_keys_of_list, Hraw|].
    apply negb_true_iff. rewrite <- is_stop_word_In in Hstop.
    destruct (is_stop_word stop_words raw); congruence.
Qed.

Lemma chunk_In (n : nat) (toks : list string) (i : nat) (word : string) :
  In word (chunk n toks i) -> In word toks.
Proof.
  unfold chunk. intros H.
  rewrite <- (firstn_skipn (i * n) toks). apply in_or_app. right.
  rewrite <- (firstn_skipn n (skipn (i * n) toks)). apply in_or_app. left. exact H.
Qed.

(** For every non-zero [w] the tokenizer returns floor(tokens / |w|) groups;
    in particular a text with fewer than [|w|] tokens gives no group. *)
Theorem number_of_groups (lemmatize : string -> string) (stop_words : list string)
    (input_string : string) (w : Z) :
  w <> 0 ->
  exists groups vocabulary breaks,
    tokenize_string lemmatize stop_words input_string w =
      Ok (groups, vocabulary, breaks) /\
    len groups = len (raw_tokens input_string) / Z.abs w /\
    (len (raw_tokens input_string) < Z.abs w -> groups = []).
Proof.
  intros Hw.
  destruct (tokenize_string_groups lemmatize stop_words input_string w Hw)
    as (vocabulary & breaks & Hrun).
  do 3 eexists. split; [exact Hrun|].
  assert (Hlen : len (map (fun i =>
               map (fun word => lemmatize (lemmatize word))
                 (filter (fun word => negb (is_stop_word stop_words word))
                    (Counter.keys
                       (Counter.of_list
                          (chunk (Z.to_nat (Z.abs w)) (raw_tokens input_string) i)))))
          (seq 0 (List.length (raw_tokens input_string) / Z.to_nat (Z.abs w))))
          = len (raw_tokens input_string) / Z.abs w).
  { unfold len. rewrite length_map, length_seq, Nat2Z.inj_div, Z2Nat.id by lia.
    reflexivity. }
  split; [exact Hlen|].
  intros Hshort. rewrite Z.div_small in Hlen by (pose proof (len_nonneg (raw_tokens input_string)); lia).
  destruct (map _ _); [reflexivity|]. unfold len in Hlen. simpl in Hlen. lia.
Qed.

Lemma number_of_groups_witness :
  exists groups vocabulary breaks,
    tokenize_string identity ["the"; "on"] scenario_text 3 =
      Ok (groups, vocabulary, breaks) /\
    len groups = 3.
Proof.
  destruct (number_of_groups identity ["the"; "on"] scenario_text 3)
    as (groups & vocabulary & breaks & Hrun & Hlen & _); [lia|].
  exists groups, vocabulary, breaks. split; [exact Hrun|].
  rewrite Hlen. reflexivity.
Defined.




(** ** The tokens *)

Lemma joined_runs_app (l1 l2 : list ascii) :
  joined_runs l1 = true -> joined_runs l2 = true -> joined_runs (l1 ++ l2) = true.
Proof.
  induction l1 as [|c l1 IH]; intros H1 H2; simpl in *; [exact H2|].
  apply andb_true_iff in H1. destruct H1 as [Hc Hrest].
  rewrite (IH Hrest H2), andb_true_r.
  destruct (is_lower c); [reflexivity|]. simpl in *.
  destruct l1 as [|c' l1]; [rewrite andb_false_r in Hc; discriminate | exact Hc].
Qed.

Lemma matches_chars_app (l1 l2 : list ascii) :
  matches_chars l1 = true -> joined_runs l2 = true -> matches_chars (l1 ++ l2) = true.
Proof.
  destruct l1 as [|c l1]; [discriminate|]. intros H1 H2.
  unfold matches_chars in *. rewrite <- app_comm_cons.
  apply andb_true_iff in H1. destruct H1 as [Hc Hrun].
  rewrite Hc. simpl andb. apply (joined_runs_app (c :: l1) l2 Hrun H2).
Qed.

Lemma findall_aux_matches (s : list ascii) (st : scan_state) (token : string) :
  scan_state_ok st -> In token (findall_aux st s) -> matches_pattern token = true.
Proof.
  revert st. induction s as [|c s IH]; intros st Hst Hin.
  - destruct st as [|acc|acc sep]; simpl in Hin.
    + contradiction.
    + destruct Hin as [<-|[]]. unfold matches_pattern.
      rewrite list_ascii_of_string_of_list_ascii. exact Hst.
    + destruct Hin as [<-|[]]. unfold matches_pattern.
      rewrite list_ascii_of_string_of_list_ascii. apply Hst.
  - destruct st as [|acc|acc sep]; simpl in Hin.
    + destruct (is_lower c) eqn:Hc.
      * apply (IH (InWord [c])); [|exact Hin]. simpl. rewrite Hc. reflexivity.
      * apply (IH Idle); [exact I | exact Hin].
    + destruct (is_lower c) eqn:Hc.
      * apply (IH (InWord (c :: acc))); [|exact Hin]. simpl.
        apply matches_chars_app; [exact Hst|]. simpl. rewrite Hc. reflexivity.
      * destruct (is_joiner c) eqn:Hj.
        -- apply (IH (AfterSep acc c)); [|exact Hin]. split; assumption.
        -- destruct Hin as [<-|Hin].
           ++ unfold matches_pattern. rewrite list_ascii_of_string_of_list_ascii.
              exact Hst.
           ++ apply (IH Idle); [exact I | exact Hin].
    + destruct Hst as [Hacc Hsep]. destruct (is_lower c) eqn:Hc.
      * apply (IH (InWord (c :: sep :: acc))); [|exact Hin]. simpl.
        rewrite <- app_assoc. apply matches_chars_app; [exact Hacc|].
        simpl. rewrite Hc, Hsep. simpl. rewrite orb_true_r. reflexivity.
      * destruct Hin as [<-|Hin].
        -- unfold matches_pattern. rewrite list_ascii_of_string_of_list_ascii.
           exact Hacc.
        -- apply (IH Idle); [exact I | exact Hin].
Qed.

(** Every token of the stream is a full match of the pattern: it starts with
    a lowercase letter, holds only lowercase letters, hyphens and
    apostrophes, and every hyphen or apostrophe in it is directly followed by
    a lowercase letter. *)
Theorem raw_tokens_match_pattern (input_string : string) (token : string) :
  In token (raw_tokens input_string) -> matches_pattern token = true.
Proof.
  unfold raw_tokens. intros Hin.
  rewrite (proj1 (count_tokens_invariant (paragraphs input_string))) in Hin.
  apply in_concat in Hin. destruct Hin as (toks & Htoks & Hin).
  apply in_map_iff in Htoks. destruct Htoks as (p & <- & _).
  apply (findall_aux_matches p Idle token I Hin).
Qed.

Lemma raw_tokens_match_pattern_witness : matches_pattern "mother-in-law" = true.
Proof.
  apply (raw_tokens_match_pattern "My mother-in-law, 2 cats"). vm_compute. tauto.
Defined.


(** ** Lines and blanks do not change the token stream *)

Lemma findall_aux_break (l1 l2 : list ascii) (st : scan_state) (c : ascii) :
  is_lower c = false -> is_joiner c = false ->
  findall_aux st (l1 ++ c :: l2) = (findall_aux st l1 ++ findall_aux Idle l2)%list.
Proof.
  intros Hc Hj. revert st. induction l1 as [|x l1 IH]; intros st.
  - destruct st; simpl; rewrite Hc; try rewrite Hj; reflexivity.
  - destruct st as [|acc|acc sep]; simpl.
    + destruct (is_lower x); apply IH.
    + destruct (is_lower x); [apply IH|].
      destruct (is_joiner x); [apply IH|]. simpl. f_equal. apply IH.
    + destruct (is_lower x); [apply IH|]. simpl. f_equal. apply IH.
Qed.

Lemma space_breaks (c : ascii) :
  is_space c = true -> is_lower c = false /\ is_joiner c = false.
Proof.
  destruct c as [[] [] [] [] [] [] [] []]; intros H; try discriminate H; split; reflexivity.
Qed.

Lemma findall_idle_blanks (sp l : list ascii) :
  Forall (fun c => is_space c = true) sp ->
  findall_aux Idle (sp ++ l) = findall_aux Idle l.
Proof.
  induction 1 as [|c sp Hc _ IH]; simpl; [reflexivity|].
  rewrite (proj1 (space_breaks c Hc)). exact IH.
Qed.

Lemma findall_trailing_blanks (sp l : list ascii) (st : scan_state) :
  Forall (fun c => is_space c = true) sp ->
  findall_aux st (l ++ sp) = findall_aux st l.
Proof.
  intros Hsp. destruct Hsp as [|c sp Hc Hsp]; [rewrite app_nil_r; reflexivity|].
  destruct (space_breaks c Hc) as [Hl Hj].
  rewrite (findall_aux_break l sp st c Hl Hj).
  rewrite <- (app_nil_r sp), (findall_idle_blanks sp [] Hsp). simpl.
  apply app_nil_r.
Qed.

Lemma lstrip_split (l : list ascii) :
  exists sp, Forall (fun c => is_space c = true) sp /\ l = (sp ++ lstrip l)%list.
Proof.
  induction l as [|c l (sp & Hsp & Heq)]; simpl.
  - exists []. split; [constructor | reflexivity].
  - destruct (is_space c) eqn:Hc.
    + exists (c :: sp). split; [constructor; assumption|]. simpl. f_equal. exact Heq.
    + exists []. split; [constructor | reflexivity].
Qed.

(** Trimming a line does not change what the pattern finds in it. *)
Lemma findall_strip (l : list ascii) : findall (strip l) = findall l.
Proof.
  unfold findall, strip.
  destruct (lstrip_split l) as (sp1 & Hsp1 & Heq1).
  destruct (lstrip_split (rev (lstrip l))) as (sp2 & Hsp2 & Heq2).
  rewrite Heq1 at 2. rewrite (findall_idle_blanks sp1 _ Hsp1).
  apply (f_equal (@rev ascii)) in Heq2. rewrite rev_involutive, rev_app_distr in Heq2.
  rewrite Heq2 at 2. symmetry. apply findall_trailing_blanks.
  apply Forall_rev, Hsp2.
Qed.

Lemma concat_findall_lines (n : nat) (s cur : list ascii) :
  (List.length s <= n)%nat ->
  List.concat (map findall (splitlines_aux cur s)) = findall (rev cur ++ s).
Proof.
  revert s cur. induction n as [|n IH]; intros s cur Hlen.
  - destruct s; [|simpl in Hlen; lia]. simpl. rewrite app_nil_r.
    destruct cur as [|c cur]; [reflexivity|]. simpl. apply app_nil_r.
  - destruct s as [|c rest].
    { simpl. rewrite app_nil_r.
      destruct cur as [|c cur]; [reflexivity|]. simpl. apply app_nil_r. }
    simpl in Hlen. cbn [splitlines_aux].
    destruct (Ascii.eqb_spec c CR) as [->|Hcr].
    + destruct rest as [|c' rest'].
      * simpl. unfold findall. rewrite (findall_aux_break (rev cur) [] Idle CR);
          reflexivity.
      * destruct (Ascii.eqb_spec c' LF) as [->|Hlf].
        -- cbn [map List.concat]. rewrite (IH rest' []) by (simpl in Hlen; lia).
           unfold findall.
           rewrite (findall_aux_break (rev cur) (LF :: rest') Idle CR) by reflexivity.
           reflexivity.
        -- cbn [map List.concat]. rewrite (IH (c' :: rest') []) by (simpl in *; lia).
           unfold findall.
           rewrite (findall_aux_break (rev cur) (c' :: rest') Idle CR) by reflexivity.
           reflexivity.
    + destruct (Ascii.eqb_spec c LF) as [->|Hlf].
      * cbn [map List.concat]. rewrite (IH rest []) by lia.
        unfold findall.
        rewrite (findall_aux_break (rev cur) rest Idle LF) by reflexivity.
        reflexivity.
      * rewrite (IH rest (c :: cur)) by lia. simpl. rewrite <- app_assoc. reflexivity.
Qed.

Lemma concat_findall_nonempty (lines : list (list ascii)) :
  List.concat (map findall (filter (fun s => negb (is_empty_line s)) lines)) =
  List.concat (map findall lines).
Proof.
  induction lines as [|l lines IH]; simpl; [reflexivity|].
  destruct l as [|c l]; simpl; [exact IH|]. rewrite IH. reflexivity.
Qed.

Lemma paragraph_tokens_of_whole_text (input_string : string) :
  List.concat (map findall (paragraphs input_string)) =
  findall (list_ascii_of_string input_string).
Proof.
  unfold paragraphs. rewrite concat_findall_nonempty, map_map.
  rewrite (map_ext (fun l => findall (strip l)) findall findall_strip).
  unfold splitlines.
  apply (concat_findall_lines (List.length (list_ascii_of_string input_string))).
  lia.
Qed.

(** The token stream is what the pattern finds in the whole text: cutting
    the text into lines, trimming them and dropping the empty ones loses no
    token and splits none. *)
Theorem raw_tokens_of_whole_text (input_string : string) :
  raw_tokens input_string = findall (list_ascii_of_string input_string).
Proof.
  unfold raw_tokens.
  rewrite (proj1 (count_tokens_invariant (paragraphs input_string))).
  apply paragraph_tokens_of_whole_text.
Qed.

(** ** Tokenizing tokens *)

Lemma findall_aux_continues (l : list ascii) :
  (forall acc, joined_runs l = true ->
     findall_aux (InWord acc) l = [string_of_list_ascii (rev acc ++ l)]) /\
  (forall acc sep c rest, l = c :: rest -> is_lower c = true -> joined_runs l = true ->
     findall_aux (AfterSep acc sep) l = [string_of_list_ascii (rev acc ++ sep :: l)]).
Proof.
  induction l as [|x l [IHword IHsep]].
  - split; [|discriminate]. intros acc _. simpl. rewrite app_nil_r. reflexivity.
  - assert (Hword : forall acc, joined_runs (x :: l) = true ->
              findall_aux (InWord acc) (x :: l) =
              [string_of_list_ascii (rev acc ++ x :: l)]).
    { intros acc Hrun. simpl in Hrun. apply andb_true_iff in Hrun.
      destruct Hrun as [Hx Hl]. simpl. destruct (is_lower x) eqn:Elower.
      - rewrite (IHword (x :: acc) Hl). simpl. rewrite <- app_assoc. reflexivity.
      - simpl in Hx. apply andb_true_iff in Hx. destruct Hx as [Hj Hnext].
        rewrite Hj. destruct l as [|c rest]; [discriminate|].
        apply (IHsep acc x c rest eq_refl Hnext Hl). }
    split; [exact Hword|].
    intros acc sep c rest Heq Hc Hrun. injection Heq as <- <-.
    simpl findall_aux. rewrite Hc.
    simpl in Hrun. apply andb_true_iff in Hrun. destruct Hrun as [_ Hl].
    rewrite (IHword (x :: sep :: acc) Hl). simpl. rewrite <- !app_assoc. reflexivity.
Qed.

(** A full match of the pattern is found as one token. *)
Lemma findall_token (token : string) :
  matches_pattern token = true -> findall (list_ascii_of_string token) = [token].
Proof.
  unfold matches_pattern, matches_chars, findall.
  destruct (list_ascii_of_string token) as [|c l] eqn:E; [discriminate|].
  intros H. apply andb_true_iff in H. destruct H as [Hc Hrun].
  simpl in Hrun. rewrite Hc in Hrun. simpl in Hrun.
  cbn [findall_aux]. rewrite Hc. rewrite (proj1 (findall_aux_continues l) [c] Hrun).
  change (rev [c] ++ l)%list with (c :: l).
  rewrite <- E, string_of_list_ascii_of_string. reflexivity.
Qed.

Lemma findall_spaced (sep : ascii) (toks : list string) :
  is_lower sep = false -> is_joiner sep = false ->
  Forall (fun token => matches_pattern token = true) toks ->
  findall (List.concat (map (fun token => (list_ascii_of_string token ++ [sep])%list) toks))
  = toks.
Proof.
  intros Hl Hj. induction 1 as [|token toks Htoken _ IH]; [reflexivity|].
  cbn [map List.concat]. rewrite <- app_assoc. cbn [app]. unfold findall.
  rewrite (findall_aux_break (list_ascii_of_string token) _ Idle sep Hl Hj).
  fold (findall (list_ascii_of_string token)). rewrite (findall_token token Htoken).
  simpl. f_equal. exact IH.
Qed.

(** Writing full matches of the pattern one after the other, each followed
    by a character that is neither a lowercase letter nor a hyphen or
    apostrophe (a blank, a newline, a digit, ...), and tokenizing the text
    gives back the same tokens in the same order. *)
Theorem raw_tokens_spaced (sep : ascii) (toks : list string) :
  is_lower sep = false -> is_joiner sep = false ->
  Forall (fun token => matches_pattern token = true) toks ->
  raw_tokens (spaced sep toks) = toks.
Proof.
  intros Hl Hj Htoks. unfold raw_tokens.
  rewrite (proj1 (count_tokens_invariant (paragraphs (spaced sep toks)))).
  rewrite paragraph_tokens_of_whole_text. unfold spaced.
  rewrite list_ascii_of_string_of_list_ascii.
  apply findall_spaced; assumption.
Qed.

Lemma raw_tokens_spaced_witness :
  raw_tokens (spaced LF ["don't"; "mother-in-law"; "cat"]) =
  ["don't"; "mother-in-law"; "cat"].
Proof.
  apply raw_tokens_spaced; [reflexivity | reflexivity |].
  repeat constructor.
Defined.

(** Tokenizing is idempotent on the token stream: the tokens of a text,
    written out with blanks between them, tokenize to the same stream. *)
Theorem raw_tokens_idempotent (input_string : string) :
  raw_tokens (spaced " "%char (raw_tokens input_string)) = raw_tokens input_string.
Proof.
  unfold raw_tokens.
  rewrite !(proj1 (count_tokens_invariant _)), paragraph_tokens_of_whole_text.
  unfold spaced. rewrite list_ascii_of_string_of_list_ascii.
  apply findall_spaced; [reflexivity | reflexivity |].
  apply Forall_forall. intros token Hin.
  apply in_concat in Hin. destruct Hin as (toks & Htoks & Hin).
  apply in_map_iff in Htoks. destruct Htoks as (p & <- & _).
  apply (findall_aux_matches p Idle token I Hin).
Qed.

(** ** The half-width saturates *)

Lemma for_each_ext_in {A S : Type} (f g : S -> A -> result S) (l : list A) (st : S) :
  (forall st x, In x l -> f st x = g st x) -> for_each f l st = for_each g l st.
Proof.
  revert st. induction l as [|x l IH]; intros st Hfg; simpl; [reflexivity|].
  rewrite (Hfg st x) by (left; reflexivity).
  destruct (g st x); simpl; [|reflexivity].
  apply IH. intros st' y Hy. apply Hfg. right. exact Hy.
Qed.

(** Once [k] reaches half the number of groups it has no further effect:
    any two such values give the same scores. *)
Theorem block_score_saturates (k k' : Z) (token_sequence : list (list string))
    (unique_tokens : list string) :
  len token_sequence <= 2 * k -> len token_sequence <= 2 * k' ->
  block_score k token_sequence unique_tokens =
  block_score k' token_sequence unique_tokens.
Proof.
  intros Hk Hk'. unfold block_score, block_sums, block_states.
  rewrite (for_each_ext_in (gap_step k token_sequence unique_tokens)
             (gap_step k' token_sequence unique_tokens)); [reflexivity|].
  intros st g Hg. apply range_In in Hg. unfold gap_step.
  replace (current_k k' (len token_sequence) g)
    with (current_k k (len token_sequence) g) by (unfold current_k; lia).
  reflexivity.
Qed.

Lemma block_score_saturates_witness :
  block_score 2 aba ["a"; "b"] = block_score 7 aba ["a"; "b"].
Proof.
  apply block_score_saturates; vm_compute; discriminate.
Defined.

(** ** Groups without vocabulary words *)

Lemma getitem_In {A : Type} (l : list A) (i : Z) (a : A) :
  getitem l i = Ok a -> In a l.
Proof.
  unfold getitem. destruct (_ <? 0); [discriminate|].
  destruct (nth_error l _) as [x|] eqn:E; [|discriminate].
  intros H. injection H as <-. apply (nth_error_In _ _ E).
Qed.

(** An invariant of the accumulators that adding any group of the sequence
    preserves holds whenever a gap is scored. *)
Lemma block_sums_invariant (Inv : Counter.t -> Prop) (P : sums -> Prop) (k : Z)
    (token_sequence : list (list string)) (unique_tokens : list string)
    (block : list sums) :
  Inv Counter.empty ->
  (forall c group, Inv c -> In group token_sequence ->
                   Inv (Counter.add c (Counter.of_list group))) ->
  (forall b a, Inv b -> Inv a -> P (gap_sums unique_tokens b a)) ->
  block_sums k token_sequence unique_tokens = Ok block ->
  Forall P block.
Proof.
  intros Hempty Hadd HP Hrun. unfold block_sums, block_states in Hrun.
  assert (Hacc : forall g ck js st st',
            for_each (accumulate token_sequence g ck) js st = Ok st' ->
            Inv (fst st) -> Inv (snd st) -> Inv (fst st') /\ Inv (snd st')).
  { intros g ck js. induction js as [|j js IH]; intros st st' H Hb Ha; simpl in H.
    - injection H as <-. split; assumption.
    - unfold accumulate at 1 in H.
      destruct (getitem token_sequence (g + j - ck)) as [gb|e] eqn:E1; [|discriminate].
      destruct (getitem token_sequence (g + j)) as [ga|e] eqn:E2; [|discriminate].
      simpl in H. apply IH in H; [exact H | simpl ..].
      + apply Hadd; [exact Hb | apply (getitem_In _ _ _ E1)].
      + apply Hadd; [exact Ha | apply (getitem_In _ _ _ E2)]. }
  assert (Hgaps : forall gaps st st',
            for_each (gap_step k token_sequence unique_tokens) gaps st = Ok st' ->
            Inv (before_count st) -> Inv (after_count st) -> Forall P (sums_block st) ->
            Forall P (sums_block st')).
  { induction gaps as [|g gaps IH]; intros st st' H Hb Ha Hall; simpl in H.
    - injection H as <-. exact Hall.
    - destruct (gap_step k token_sequence unique_tokens st g) as [st1|e] eqn:Hstep;
        [|discriminate].
      simpl in H. unfold gap_step in Hstep.
      destruct (for_each _ (range 0 _) _) as [counts|e] eqn:Hc; [|discriminate].
      simpl in Hstep. injection Hstep as <-.
      destruct (Hacc _ _ _ _ _ Hc Hb Ha) as [Hb1 Ha1].
      apply IH in H; [exact H | exact Hb1 | exact Ha1 |]. simpl.
      apply Forall_app. split; [exact Hall|]. constructor; [|constructor].
      apply HP; assumption. }
  destruct (for_each _ _ initial_state) as [st|e] eqn:Hst; [|discriminate].
  simpl in Hrun. injection Hrun as <-.
  apply (Hgaps _ _ _ Hst); [exact Hempty | exact Hempty | constructor].
Qed.

Lemma gap_sums_zero (unique_tokens : list string) (b a : Counter.t) :
  (forall word, In word unique_tokens -> Counter.get b word = 0) ->
  (forall word, In word unique_tokens -> Counter.get a word = 0) ->
  gap_sums unique_tokens b a = zero_sums.
Proof.
  intros Hb Ha. rewrite <- (gap_sums_empty unique_tokens).
  apply gap_sums_on_vocabulary; intros word Hw; [rewrite Hb | rewrite Ha];
    try exact Hw; reflexivity.
Qed.

Lemma block_sums_zero (k : Z) (token_sequence : list (list string))
    (unique_tokens : list string) (block : list sums) :
  (forall group word, In group token_sequence -> In word group ->
                      ~ In word unique_tokens) ->
  block_sums k token_sequence unique_tokens = Ok block ->
  Forall (fun s => s = zero_sums) block.
Proof.
  intros Habsent Hrun.
  apply (block_sums_invariant
           (fun c => well_formed c /\
                     forall word, In word unique_tokens -> Counter.get c word = 0)
           _ k token_sequence unique_tokens block); [| | |exact Hrun].
  - split; [apply well_formed_empty | reflexivity].
  - intros c group [Hwf Hzero] Hin. split; [apply well_formed_add|].
    intros word Hw. rewrite get_add, get_of_list by (exact Hwf || apply well_formed_of_list).
    rewrite (Hzero word Hw). unfold occurrences.
    rewrite (proj1 (count_occ_not_In string_dec group word)); [reflexivity|].
    intros Hword. apply (Habsent group word Hin Hword Hw).
  - intros b a [_ Hb] [_ Ha]. apply gap_sums_zero; assumption.
Qed.

Lemma scores_of_zero_sums (block : list sums) :
  Forall (fun s => s = zero_sums) block ->
  map score block = repeat 0%R (List.length block).
Proof.
  induction 1 as [|s block -> _ IH]; simpl; [reflexivity|].
  rewrite IH. f_equal. apply score_numerator_zero. reflexivity.
Qed.

(** When no word of the vocabulary occurs in any group, every score is 0
    (whatever [k] is): the zero denominator is replaced by 1. *)
Theorem block_score_without_vocabulary_words (k : Z)
    (token_sequence : list (list string)) (unique_tokens : list string) :
  (forall group word, In group token_sequence -> In word group ->
                      ~ In word unique_tokens) ->
  block_score k token_sequence unique_tokens =
  Ok (repeat 0%R (List.length token_sequence - 1)).
Proof.
  intros Habsent.
  destruct (block_sums_total k token_sequence unique_tokens) as (block & Hrun & Hlen & _).
  unfold block_score. rewrite Hrun. cbn [bind]. f_equal.
  rewrite <- Hlen. apply scores_of_zero_sums.
  apply (block_sums_zero k token_sequence unique_tokens block Habsent Hrun).
Qed.

Lemma block_score_without_vocabulary_words_witness :
  block_score 1 [["x"]; ["y"]; ["x"]] ["a"; "b"] = Ok [0%R; 0%R].
Proof.
  apply (block_score_without_vocabulary_words 1 [["x"]; ["y"]; ["x"]] ["a"; "b"]).
  intros group word Hg Hw Hv. simpl in Hg, Hv.
  destruct Hg as [<-|[<-|[<-|[]]]]; destruct Hw as [<-|[]];
    destruct Hv as [H|[H|[]]]; discriminate H.
Defined.


(** ** Degenerate texts *)

Lemma filter_none {A : Type} (f : A -> bool) (l : list A) :
  (forall x, In x l -> f x = false) -> filter f l = [].
Proof.
  induction l as [|x l IH]; intros H; simpl; [reflexivity|].
  rewrite (H x) by (left; reflexivity). apply IH. intros y Hy. apply H. right. exact Hy.
Qed.

(** A text without any token (empty, blank, digits and punctuation only) is
    no error, whatever [w] is, zero included: the groups and the vocabulary
    are empty and every paragraph break is 0. *)
Theorem text_without_tokens (lemmatize : string -> string) (stop_words : list string)
    (input_string : string) (w : Z) :
  raw_tokens input_string = [] ->
  exists breaks,
    tokenize_string lemmatize stop_words input_string w = Ok ([], [], breaks) /\
    Forall (fun b => b = 0) breaks.
Proof.
  intros Hempty.
  pose proof (returned_breaks_shape input_string) as (_ & _ & Hbound & _).
  unfold tokenize_string. unfold raw_tokens in Hempty. rewrite Hempty. simpl.
  eexists. split; [reflexivity|].
  eapply Forall_impl; [|exact Hbound]. simpl. intros b Hb.
  unfold raw_tokens in Hb. rewrite Hempty in Hb. unfold len in Hb. simpl in Hb. lia.
Qed.

Lemma text_without_tokens_witness :
  exists breaks,
    tokenize_string identity [] ("12" ++ NL ++ "3.5 %") 0 = Ok ([], [], breaks) /\
    Forall (fun b => b = 0) breaks.
Proof.
  apply (text_without_tokens identity [] ("12" ++ NL ++ "3.5 %") 0). reflexivity.
Defined.

(** A text made of stop words only is no error for a non-zero [w]: the
    vocabulary is empty, every group is empty, and the scorer returns one 0
    per gap for every [k]. *)
Theorem text_of_stop_words (lemmatize : string -> string) (stop_words : list string)
    (input_string : string) (w : Z) :
  w <> 0 ->
  (forall token, In token (raw_tokens input_string) -> In token stop_words) ->
  exists groups breaks,
    tokenize_string lemmatize stop_words input_string w = Ok (groups, [], breaks) /\
    Forall (fun group => group = []) groups /\
    forall k, block_score k groups [] = Ok (repeat 0%R (List.length groups - 1)).
Proof.
  intros Hw Hstop.
  destruct (tokenize_string_groups lemmatize stop_words input_string w Hw)
    as (vocabulary & breaks & Hrun).
  destruct (tokenize_string_total lemmatize stop_words input_string w Hw)
    as (groups & Hrun').
  rewrite Hrun in Hrun'. injection Hrun' as Hgroups Hvoc Hbreaks.
  rewrite filter_none in Hvoc.
  2:{ intros x Hx. apply (proj1 (distinct_In _ _)) in Hx. apply negb_false_iff.
      apply is_stop_word_In, Hstop, Hx. }
  subst vocabulary. do 2 eexists. split; [exact Hrun|]. split.
  - apply Forall_forall. intros group Hin. apply in_map_iff in Hin.
    destruct Hin as (i & <- & _).
    destruct (map _ (filter _ _)) as [|word rest] eqn:E; [reflexivity|].
    assert (Hword : In word (word :: rest)) by (left; reflexivity).
    rewrite <- E in Hword. apply group_words in Hword.
    destruct Hword as (raw & Hraw & Hnot & _).
    exfalso. apply Hnot, Hstop. apply (chunk_In _ _ _ _ Hraw).
  - intros k.
    destruct (block_sums_total k
                (map (fun i =>
                        map (fun word => lemmatize (lemmatize word))
                          (filter (fun word => negb (is_stop_word stop_words word))
                             (Counter.keys
                                (Counter.of_list
                                   (chunk (Z.to_nat (Z.abs w))
                                      (raw_tokens input_string) i)))))
                   (seq 0 (List.length (raw_tokens input_string) / Z.to_nat (Z.abs w))))
                []) as (block & Hblock & Hlen & _).
    unfold block_score. rewrite Hblock. cbn [bind]. f_equal.
    rewrite <- Hlen. apply scores_of_zero_sums.
    refine (block_sums_zero k _ [] block _ Hblock).
    intros group word _ _ [].
Qed.

Lemma text_of_stop_words_witness :
  exists groups breaks,
    tokenize_string identity ["the"; "on"] "the on the the on" 2 =
      Ok (groups, [], breaks) /\
    Forall (fun group => group = []) groups.
Proof.
  destruct (text_of_stop_words identity ["the"; "on"] "the on the the on" 2)
    as (groups & breaks & Hrun & Hall & _).
  - lia.
  - intros token Hin. vm_compute in Hin. simpl.
    destruct Hin as [<-|[<-|[<-|[<-|[<-|[]]]]]]; tauto.
  - exists groups, breaks. split; assumption.
Defined.

(** With a lemmatizer that changes no word, every word of every group is a
    vocabulary word and no stop word (for a non-zero [w]). *)
Theorem groups_within_vocabulary (lemmatize : string -> string)
    (stop_words : list string) (input_string : string) (w : Z) :
  w <> 0 ->
  (forall word, lemmatize word = word) ->
  exists groups vocabulary breaks,
    tokenize_string lemmatize stop_words input_string w =
      Ok (groups, vocabulary, breaks) /\
    forall group word,
      In group groups -> In word group ->
      In word vocabulary /\ ~ In word stop_words.
Proof.
  intros Hw Hid.
  destruct (tokenize_string_groups lemmatize stop_words input_string w Hw)
    as (vocabulary & breaks & Hrun).
  destruct (tokenize_string_total lemmatize stop_words input_string w Hw)
    as (groups & Hrun').
  rewrite Hrun in Hrun'. injection Hrun' as _ Hvoc _.
  do 3 eexists. split; [exact Hrun|].
  intros group word Hgroup Hword. apply in_map_iff in Hgroup.
  destruct Hgroup as (i & <- & _). apply group_words in Hword.
  destruct Hword as (raw & Hraw & Hnot & ->). rewrite !Hid.
  split; [|exact Hnot]. rewrite Hvoc. apply filter_In. split.
  - apply distinct_In. apply (chunk_In _ _ _ _ Hraw).
  - apply negb_true_iff. rewrite <- is_stop_word_In in Hnot.
    destruct (is_stop_word stop_words raw); congruence.
Qed.

Lemma groups_within_vocabulary_witness :
  exists groups vocabulary breaks,
    tokenize_string identity ["the"; "on"] scenario_text 3 =
      Ok (groups, vocabulary, breaks) /\
    forall group word, In group groups -> In word group -> In word vocabulary.
Proof.
  destruct (groups_within_vocabulary identity ["the"; "on"] scenario_text 3)
    as (groups & vocabulary & breaks & Hrun & Hall); [lia | reflexivity |].
  exists groups, vocabulary, breaks. split; [exact Hrun|].
  intros group word Hg Hw. apply (Hall group word Hg Hw).
Defined.

(** ** Where the paragraph breaks point *)

Lemma paragraph_breaks_positions (ps : list (list ascii)) :
  paragraph_breaks (count_tokens ps) =
  map (fun i => len (List.concat (map findall (firstn (S i) ps))))
    (seq 0 (List.length ps)).
Proof.
  induction ps as [|p ps IH] using rev_ind; [reflexivity|].
  rewrite count_tokens_snoc.
  destruct (count_tokens_invariant ps) as (Htok & Hcount & _).
  unfold count_step. cbn [paragraph_breaks]. rewrite IH, Hcount, Htok.
  rewrite length_app, Nat.add_1_r, seq_S, map_app. cbn [map Nat.add]. f_equal.
  - apply map_ext_in. intros i Hi. apply in_seq in Hi.
    rewrite firstn_app. replace (S i - List.length ps)%nat with 0%nat by lia.
    rewrite firstn_O, app_nil_r. reflexivity.
  - rewrite firstn_all2 by (rewrite length_app; simpl; lia).
    rewrite map_app, concat_app, len_app. simpl. rewrite app_nil_r. reflexivity.
Qed.

(** For a non-zero [w], break number [i] is the number of tokens in the
    paragraphs 0 to [i], and the tokens of the stream before that position
    are exactly the tokens of those paragraphs: the break points just after
    the last token of paragraph [i]. *)
Theorem paragraph_break_positions (lemmatize : string -> string)
    (stop_words : list string) (input_string : string) (w : Z) (i : nat) :
  w <> 0 ->
  (S i < List.length (paragraphs input_string))%nat ->
  exists groups vocabulary breaks,
    tokenize_string lemmatize stop_words input_string w =
      Ok (groups, vocabulary, breaks) /\
    nth_error breaks i =
      Some (len (List.concat (map findall (firstn (S i) (paragraphs input_string))))) /\
    firstn (List.length
              (List.concat (map findall (firstn (S i) (paragraphs input_string)))))
      (raw_tokens input_string) =
    List.concat (map findall (firstn (S i) (paragraphs input_string))).
Proof.
  intros Hw Hi.
  destruct (tokenize_string_total lemmatize stop_words input_string w Hw)
    as (groups & Hrun).
  do 3 eexists. split; [exact Hrun|]. split.
  - unfold drop_last. rewrite removelast_firstn_len, nth_error_firstn.
    rewrite paragraph_breaks_positions, length_map, length_seq.
    destruct (Nat.ltb_spec i (pred (List.length (paragraphs input_string)))); [|lia].
    rewrite nth_error_map, nth_error_seq.
    destruct (Nat.ltb_spec i (List.length (paragraphs input_string))); [|lia].
    reflexivity.
  - unfold raw_tokens.
    rewrite (proj1 (count_tokens_invariant (paragraphs input_string))).
    rewrite <- (firstn_skipn (S i) (paragraphs input_string)) at 2.
    rewrite map_app, concat_app.
    rewrite <- (Nat.add_0_r (List.length _)), firstn_app_2, firstn_O, app_nil_r.
    reflexivity.
Qed.

Lemma paragraph_break_positions_witness :
  exists groups vocabulary breaks,
    tokenize_string identity ["the"; "on"] scenario_text 3 =
      Ok (groups, vocabulary, breaks) /\
    nth_error breaks 0 = Some 6.
Proof.
  destruct (paragraph_break_positions identity ["the"; "on"] scenario_text 3 0)
    as (groups & vocabulary & breaks & Hrun & Hnth & _); [lia | vm_compute; lia |].
  exists groups, vocabulary, breaks. split; [exact Hrun | exact Hnth].
Defined.

(** ** The two functions in sequence *)

(** For a non-zero [w] and any [k], tokenizing a text and scoring the result
    never fails; it gives floor(tokens / |w|) - 1 scores (none when there are
    fewer than two groups), each between 0 and 1. *)
Theorem pipeline_scores (lemmatize : string -> string) (stop_words : list string)
    (input_string : string) (w k : Z) :
  w <> 0 ->
  exists groups vocabulary breaks scores,
    tokenize_string lemmatize stop_words input_string w =
      Ok (groups, vocabulary, breaks) /\
    block_score k groups vocabulary = Ok scores /\
    len scores = Z.max 0 (len (raw_tokens input_string) / Z.abs w - 1) /\
    Forall (fun x => (0 <= x <= 1)%R) scores.
Proof.
  intros Hw.
  destruct (tokenize_string_groups lemmatize stop_words input_string w Hw)
    as (vocabulary & breaks & Hrun).
  set (groups := map _ _) in Hrun.
  destruct (block_sums_total k groups vocabulary) as (block & Hblock & Hlen & _).
  exists groups, vocabulary, breaks, (map score block).
  split; [exact Hrun|]. unfold block_score. rewrite Hblock. cbn [bind].
  split; [reflexivity|]. split.
  - unfold len. rewrite length_map, Hlen. unfold groups.
    rewrite length_map, length_seq.
    assert (Hdiv : Z.of_nat (List.length (raw_tokens input_string) / Z.to_nat (Z.abs w))
                   = Z.of_nat (List.length (raw_tokens input_string)) / Z.abs w)
      by (rewrite Nat2Z.inj_div, Z2Nat.id by lia; reflexivity).
    lia.
  - unfold block_sums in Hblock.
    destruct (block_states k groups vocabulary) as [st|e] eqn:Hst; [|discriminate].
    simpl in Hblock. injection Hblock as <-.
    destruct (gap_steps_bounded _ _ _ _ _ _ Hst) as (_ & _ & Hall);
      [apply well_formed_empty | apply well_formed_empty | constructor |].
    apply Forall_map. eapply Forall_impl; [|exact Hall].
    intros s Hs. apply score_bounds, Hs.
Qed.

Lemma pipeline_scores_witness :
  exists groups vocabulary breaks scores,
    tokenize_string identity ["the"; "on"] scenario_text 3 =
      Ok (groups, vocabulary, breaks) /\
    block_score 1 groups vocabulary = Ok scores /\
    len scores = 2.
Proof.
  destruct (pipeline_scores identity ["the"; "on"] scenario_text 3 1)
    as (groups & vocabulary & breaks & scores & Hrun & Hscore & Hlen & _); [lia|].
  exists groups, vocabulary, breaks, scores.
  split; [exact Hrun|]. split; [exact Hscore|]. rewrite Hlen. reflexivity.
Defined.

(** ** Which lines are paragraphs *)

Lemma lstrip_blank (l : list ascii) : forallb is_space l = true -> lstrip l = [].
Proof.
  induction l as [|c l IH]; simpl; [reflexivity|].
  intros H. apply andb_true_iff in H. destruct H as [Hc Hl]. rewrite Hc. apply IH, Hl.
Qed.

Lemma lstrip_nonblank (l : list ascii) :
  forallb is_space l = false -> forallb is_space (lstrip l) = false.
Proof.
  induction l as [|c l IH]; simpl; [discriminate|].
  destruct (is_space c) eqn:Hc; simpl; [exact IH|].
  intros _. rewrite Hc. reflexivity.
Qed.

Lemma forallb_rev {A : Type} (f : A -> bool) (l : list A) :
  forallb f (rev l) = forallb f l.
Proof.
  induction l as [|x l IH]; [reflexivity|]. simpl.
  rewrite forallb_app, IH. simpl. rewrite andb_true_r. apply andb_comm.
Qed.

(** Trimming leaves nothing exactly when the line holds only whitespace. *)
Lemma strip_empty (l : list ascii) : is_empty_line (strip l) = forallb is_space l.
Proof.
  unfold strip. destruct (forallb is_space l) eqn:E.
  - rewrite (lstrip_blank l E). reflexivity.
  - apply lstrip_nonblank in E. rewrite <- forallb_rev in E.
    apply lstrip_nonblank in E. rewrite <- forallb_rev in E.
    destruct (rev (lstrip (rev (lstrip l)))); [discriminate | reflexivity].
Qed.

(** The paragraphs are the lines of the text that hold at least one
    character other than whitespace, trimmed, in the order of the text; a
    line of digits or punctuation is a paragraph, a blank line is not. *)
Theorem paragraphs_are_nonblank_lines (input_string : string) :
  paragraphs input_string =
  map strip (filter (fun line => negb (forallb is_space line)) (splitlines input_string)).
Proof.
  unfold paragraphs. induction (splitlines input_string) as [|line lines IH];
    [reflexivity|].
  simpl. rewrite strip_empty, IH.
  destruct (forallb is_space line); reflexivity.
Qed.
